(** * Inventory tools: the KMS key report (main.go) and the Secrets Manager
    exporter (secpq.go)

  A shallow embedding of the two Go programs and the properties of their
  listing, enrichment, column discovery, table rendering and export
  steps.  Remote services are deterministic state transformers over an
  abstract service state; every call the programs issue is recorded in a
  call log, so that statements such as "no tag call is issued" are
  statements about the log. *)

From Stdlib Require Import ZArith Lia Ascii.
From stdpp Require Import gmap strings list sorting pretty.

Local Open Scope string_scope.
Local Open Scope list_scope.

(** ** The fragment of Go and of its standard library the programs use *)

Module Go.

(** A Go [error] value, reduced to what the programs observe: the text of
    [err.Error()] and, when [errors.As(err, &apiErr)] finds a
    [smithy.APIError] in the chain, its [ErrorCode()]. *)
Record error : Type := mkError {
  Error : string;
  ErrorCode : option string
}.

(** A Go result pair [(T, error)]: either a value with a nil error, or a
    non-nil error. *)
Inductive result (T : Type) : Type :=
| Ok (v : T)
| Err (e : error).
Arguments Ok {T} v.
Arguments Err {T} e.

(** [fmt.Errorf(prefix + "%w", err)]: the message is prefixed, the chain
    is kept, so [errors.As] still finds the API error. *)
Definition Errorf_w (prefix : string) (err : error) : error :=
  {| Error := prefix +:+ Error err; ErrorCode := ErrorCode err |}.

(** [strings.HasPrefix] and [strings.Contains] on byte strings. *)
Fixpoint HasPrefix (s prefix : string) {struct prefix} : bool :=
  match prefix, s with
  | EmptyString, _ => true
  | String _ _, EmptyString => false
  | String a p, String b s' => if Ascii.eqb a b then HasPrefix s' p else false
  end.

Fixpoint Contains (s substr : string) : bool :=
  HasPrefix s substr ||
  match s with
  | EmptyString => false
  | String _ s' => Contains s' substr
  end.

(** Conversion to a signed [w]-bit integer: two's complement wrap-around. *)
Definition wrap (w : Z) (z : Z) : Z :=
  (z + 2 ^ (w - 1)) mod 2 ^ w - 2 ^ (w - 1).
Definition int32 (z : Z) : Z := wrap 32 z.
Definition int64 (z : Z) : Z := wrap 64 z.

(** A [time.Time], reduced to its instant: seconds since the Unix epoch
    and the nanoseconds within the second.  [Unix()] returns an [int64]. *)
Record Time : Type := mkTime {
  sec : Z;
  nsec : Z
}.
Definition Unix (t : Time) : Z := int64 (sec t).

(** The zero [time.Time{}], January 1 of year 1, 00:00:00 UTC. *)
Definition zeroTime : Time := {| sec := -62135596800; nsec := 0 |}.

(** [strings.Repeat] of a one-byte string. *)
Fixpoint Repeat (c : Ascii.ascii) (n : nat) : string :=
  match n with
  | O => EmptyString
  | S n => String c (Repeat c n)
  end.

(** The newline byte written by [Println] and by the formats ending in it. *)
Definition nl : string := String (Ascii.ascii_of_nat 10) EmptyString.

(** [%d] of a non-negative [int]. *)
Definition itoa (n : nat) : string := pretty n.

(** [sort.Strings]: increasing order of Go's [<] on strings, which compares
    byte by byte.  The library routine is not a merge sort, but the order is
    total, so every sorting routine returns the same slice. *)
Definition sort_Strings (l : list string) : list string :=
  merge_sort String.le l.

(** How a run of [main] ends: [os.Exit(code)] or a normal return (status
    0), a run-time panic, or a loop budget used up (the model bounds the
    number of pages a listing loop fetches). *)
Inductive Outcome : Type :=
| Exit (code : nat)
| Panic
| OutOfFuel.

End Go.

Export Go.


(** ** main.go: the KMS key report *)

Module KMS.

(** *** AWS SDK types, as far as the program reads them.  The SDK hands out
    pointers; the service always fills [KeyId], [TagKey], [TagValue] and
    [KeyMetadata], which the program dereferences without a check, so
    they are plain values here. *)

Record KeyListEntry : Type := mkKeyListEntry {
  KeyId : string;
  KeyArn : string
}.

Record ListKeysOutput : Type := mkListKeysOutput {
  Keys : list KeyListEntry;
  Truncated : bool;
  NextMarker : option string
}.

Record KeyMetadata : Type := mkKeyMetadata {
  KeyManager : string;
  KeyState : string;
  MetaCreationDate : option Time;
  KeySpec : string
}.

Record Tag : Type := mkTag {
  TagKey : string;
  TagValue : string
}.

Definition KeyManagerTypeCustomer : string := "CUSTOMER".
Definition KeyStateEnabled : string := "Enabled".

(** [type KeyInfo struct] *)
Record KeyInfo : Type := mkKeyInfo {
  KeyID : string;
  Status : string;
  CreationDate : Time;
  KeyType : string;
  Tags : gmap string string
}.

Definition set_Status (s : string) (i : KeyInfo) : KeyInfo :=
  mkKeyInfo (KeyID i) s (CreationDate i) (KeyType i) (Tags i).
Definition set_CreationDate (t : Time) (i : KeyInfo) : KeyInfo :=
  mkKeyInfo (KeyID i) (Status i) t (KeyType i) (Tags i).
Definition set_KeyType (s : string) (i : KeyInfo) : KeyInfo :=
  mkKeyInfo (KeyID i) (Status i) (CreationDate i) s (Tags i).
Definition set_Tags (m : gmap string string) (i : KeyInfo) : KeyInfo :=
  mkKeyInfo (KeyID i) (Status i) (CreationDate i) (KeyType i) m.

(** One issued API call together with the answer it got. *)
Inductive Call : Type :=
| CallListKeys (marker : option string) (r : result ListKeysOutput)
| CallDescribeKey (id : string) (r : result KeyMetadata)
| CallListResourceTags (id : string) (r : result (list Tag)).

(** [*kms.Client]: the three operations over the state [World] of the
    remote service; an answer may depend on that state and a call may
    change it. *)
Record Client (World : Type) : Type := mkClient {
  ListKeys : option string → World → result ListKeysOutput * World;
  DescribeKey : string → World → result KeyMetadata * World;
  ListResourceTags : string → World → result (list Tag) * World
}.
Arguments mkClient {World} _ _ _.
Arguments ListKeys {World} _ _ _.
Arguments DescribeKey {World} _ _ _.
Arguments ListResourceTags {World} _ _ _.

(** What the program threads through: the service, the log of calls
    issued so far and the two output streams. *)
Record State (World : Type) : Type := mkState {
  world : World;
  calls : list Call;
  stdout : string;
  stderr : string
}.
Arguments mkState {World} _ _ _ _.
Arguments world {World} _.
Arguments calls {World} _.
Arguments stdout {World} _.
Arguments stderr {World} _.

(** The accumulators of the loop of [main]. *)
Record Acc : Type := mkAcc {
  enabledKeys : list KeyInfo;
  notAuthorizedKeys : list KeyInfo;
  allTagKeys : gmap string bool
}.

(** The only constraint on the order in which a [range] enumerates a
    map: every key comes exactly once. *)
Definition rangeKeys_valid (rangeKeys : ∀ V : Type, gmap string V → list string) : Prop :=
  ∀ (V : Type) (m : gmap string V), rangeKeys V m ≡ₚ (map_to_list m).*1.

(** The union of the tag keys of the records whose status is "Enabled". *)
Definition activeTagKeys (records : list KeyInfo) : gset string :=
  ⋃ ((λ r, dom (Tags r)) <$> filter (λ r, Status r = "Enabled") records).

(** Readings of a call log: the detail lookups with their answers, and
    the items of the pages that were listed. *)
Definition describeCalls (cs : list Call) : list (string * result KeyMetadata) :=
  omap (λ c, match c with CallDescribeKey id r => Some (id, r) | _ => None end) cs.

Definition listedKeys (cs : list Call) : list KeyListEntry :=
  cs ≫= (λ c, match c with CallListKeys _ (Ok output) => Keys output | _ => [] end).

(** The log of one lookup per item, each with the answer it got. *)
Definition lookupCalls (items : list (KeyListEntry * result KeyMetadata)) : list Call :=
  (λ kr, CallDescribeKey (KeyId kr.1) kr.2) <$> items.

(** The error of the first listing request that failed, if one did. *)
Definition listingFailure (cs : list Call) : option error :=
  head (omap (λ c, match c with CallListKeys _ (Err err) => Some err | _ => None end) cs).

(** A listing request that was answered with a page announcing more. *)
Definition announcesMore (c : Call) : bool :=
  match c with
  | CallListKeys _ (Ok output) => Truncated output
  | _ => false
  end.

(** The filter of [listAllKeys], read off the answer to the lookup: kept
    when the lookup failed or the key is customer managed. *)
Definition keepKey (r : result KeyMetadata) : bool :=
  match r with
  | Err _ => true
  | Ok describeOutput => String.eqb (KeyManager describeOutput) KeyManagerTypeCustomer
  end.

(** Further readings of a call log: the identifiers the tag calls were
    issued for, and the listing requests with their answers. *)
Definition tagCalls (cs : list Call) : list string :=
  omap (λ c, match c with CallListResourceTags id _ => Some id | _ => None end) cs.

Definition listingCalls (cs : list Call)
  : list (option string * result ListKeysOutput) :=
  omap (λ c, match c with CallListKeys marker r => Some (marker, r) | _ => None end) cs.

(** A sequence of listing requests that starts with [marker], sends after
    each page announcing more the marker that page returned, and has no
    request after a page announcing no more or after a failure. *)
Fixpoint chained (marker : option string)
  (requests : list (option string * result ListKeysOutput)) : Prop :=
  match requests with
  | [] => True
  | (sent, r) :: rest =>
      sent = marker
      ∧ match r with
        | Ok output =>
            if Truncated output then chained (NextMarker output) rest else rest = []
        | Err _ => rest = []
        end
  end.

Section Program.

Context {World : Type}.

Definition issue (w : World) (c : Call) (st : State World) : State World :=
  mkState w (calls st ++ [c]) (stdout st) (stderr st).

Definition Print (s : string) (st : State World) : State World :=
  mkState (world st) (calls st) (stdout st +:+ s) (stderr st).

Definition Eprint (s : string) (st : State World) : State World :=
  mkState (world st) (calls st) (stdout st) (stderr st +:+ s).

Variable client : Client World.

Definition callListKeys (marker : option string) (st : State World)
  : result ListKeysOutput * State World :=
  let '(r, w) := ListKeys client marker (world st) in
  (r, issue w (CallListKeys marker r) st).

Definition callDescribeKey (id : string) (st : State World)
  : result KeyMetadata * State World :=
  let '(r, w) := DescribeKey client id (world st) in
  (r, issue w (CallDescribeKey id r) st).

Definition callListResourceTags (id : string) (st : State World)
  : result (list Tag) * State World :=
  let '(r, w) := ListResourceTags client id (world st) in
  (r, issue w (CallListResourceTags id r) st).

(** *** [listAllKeys] *)

(** The inner loop over one page:
    [for _, key := range output.Keys { ... DescribeKey ... }]. *)
Fixpoint filterKeys (keys allKeys : list KeyListEntry) (st : State World)
  : list KeyListEntry * State World :=
  match keys with
  | [] => (allKeys, st)
  | key :: rest =>
      let '(r, st) := callDescribeKey (KeyId key) st in
      match r with
      | Err _ => filterKeys rest (allKeys ++ [key]) st
      | Ok describeOutput =>
          if String.eqb (KeyManager describeOutput) KeyManagerTypeCustomer
          then filterKeys rest (allKeys ++ [key]) st
          else filterKeys rest allKeys st
      end
  end.

(** The outer [for { ... }] loop; [fuel] bounds the number of pages. *)
Fixpoint listAllKeys_loop (fuel : nat) (allKeys : list KeyListEntry)
  (marker : option string) (st : State World)
  : option (result (list KeyListEntry)) * State World :=
  match fuel with
  | O => (None, st)
  | S fuel =>
      let '(r, st) := callListKeys marker st in
      match r with
      | Err err => (Some (Err err), st)
      | Ok output =>
          let '(allKeys, st) := filterKeys (Keys output) allKeys st in
          if negb (Truncated output) then (Some (Ok allKeys), st)
          else listAllKeys_loop fuel allKeys (NextMarker output) st
      end
  end.

(** [func listAllKeys(ctx, client) ([]types.KeyListEntry, error)] *)
Definition listAllKeys (fuel : nat) (st : State World)
  : option (result (list KeyListEntry)) * State World :=
  listAllKeys_loop fuel [] None st.

(** *** [getKeyInfo] *)

(** The access-denied signature of [getKeyInfo]: a substring test on
    the error text. *)
Definition accessDenied (err : error) : bool :=
  Contains (Error err) "AccessDenied" || Contains (Error err) "not authorized".

(** [for _, tag := range tagsOutput.Tags { info.Tags[*tag.TagKey] = *tag.TagValue }] *)
Definition addTags (tags : list Tag) (m : gmap string string) : gmap string string :=
  foldl (λ m tag, <[TagKey tag := TagValue tag]> m) m tags.

(** [func getKeyInfo(ctx, client, keyID string) KeyInfo] *)
Definition getKeyInfo (keyID : string) (st : State World) : KeyInfo * State World :=
  let info := mkKeyInfo keyID "" zeroTime "" ∅ in
  let '(r, st) := callDescribeKey keyID st in
  match r with
  | Err err =>
      if accessDenied err
      then (set_Status "Not Authorized" info, st)
      else (set_Status ("Error: " +:+ Error err) info, st)
  | Ok describeOutput =>
      let info := set_Status (KeyState describeOutput) info in
      let info :=
        match MetaCreationDate describeOutput with
        | Some t => set_CreationDate t info
        | None => info
        end in
      let info := set_KeyType (KeySpec describeOutput) info in
      if String.eqb (KeyState describeOutput) KeyStateEnabled then
        let '(r, st) := callListResourceTags keyID st in
        match r with
        | Ok tags => (set_Tags (addTags tags (Tags info)) info, st)
        | Err _ => (info, st)
        end
      else (info, st)
  end.

(** *** The loop of [main] and the discovery of the tag columns *)

(** Go enumerates the keys of a map in an unspecified order, which may
    change from one run to the next.  [rangeKeys] is the order a run
    happens to get; see [rangeKeys_valid] for the only thing known of it. *)
Variable rangeKeys : ∀ V : Type, gmap string V → list string.

(** [for tagKey := range keyInfo.Tags { allTagKeys[tagKey] = true }] *)
Definition addTagKeys (tagKeys : list string) (allTagKeys : gmap string bool)
  : gmap string bool :=
  foldl (λ m tagKey, <[tagKey := true]> m) allTagKeys tagKeys.

(** The body of [for _, key := range keys] after the call of
    [getKeyInfo]: the record joins one of the two partitions, or none. *)
Definition collect (acc : Acc) (keyInfo : KeyInfo) : Acc :=
  if String.eqb (Status keyInfo) "Not Authorized" then
    mkAcc (enabledKeys acc) (notAuthorizedKeys acc ++ [keyInfo]) (allTagKeys acc)
  else if String.eqb (Status keyInfo) "Enabled" then
    mkAcc (enabledKeys acc ++ [keyInfo]) (notAuthorizedKeys acc)
          (addTagKeys (rangeKeys _ (Tags keyInfo)) (allTagKeys acc))
  else acc.

Definition emptyAcc : Acc := mkAcc [] [] ∅.

(** [for _, key := range keys { keyInfo := getKeyInfo(ctx, client, *key.KeyId) ... }] *)
Fixpoint enrichAll (keys : list KeyListEntry) (acc : Acc) (st : State World)
  : Acc * State World :=
  match keys with
  | [] => (acc, st)
  | key :: rest =>
      let '(keyInfo, st) := getKeyInfo (KeyId key) st in
      enrichAll rest (collect acc keyInfo) st
  end.

(** The records [getKeyInfo] returns for the identifiers, in order. *)
Fixpoint enrichList (keys : list KeyListEntry) (st : State World)
  : list KeyInfo * State World :=
  match keys with
  | [] => ([], st)
  | key :: rest =>
      let '(keyInfo, st) := getKeyInfo (KeyId key) st in
      let '(keyInfos, st) := enrichList rest st in
      (keyInfo :: keyInfos, st)
  end.

(** The calls issued between two states of a run. *)
Definition newCalls (st st' : State World) : list Call :=
  drop (length (calls st)) (calls st').

(** [for tagKey := range allTagKeys { sortedTagKeys = append(...) }]
    followed by [sort.Strings(sortedTagKeys)]. *)
Definition sortedTagKeys (allTagKeys : gmap string bool) : list string :=
  sort_Strings (rangeKeys _ allTagKeys).

(** *** The tables *)

(** [time.Time.Format("2006-01-02 15:04:05")] and the rune count that
    [fmt] pads by ([utf8.RuneCountInString]) belong to the Go library;
    the tables are rendered relative to them. *)
Variable Format : Time → string.
Variable RuneCountInString : string → nat.

(** The verb [%-*s]: the value, then blanks up to the width; the value
    is written whole whatever the width. *)
Definition padRight (width : nat) (v : string) : string :=
  v +:+ Repeat " "%char (width - RuneCountInString v).

(** [for i, v := range values { fmt.Printf("| %-*s ", widths[i], v) }];
    [None] is the index-out-of-range panic of [widths[i]]. *)
Fixpoint printCells (i : nat) (values : list string) (widths : list nat)
  : option string :=
  match values with
  | [] => Some ""
  | v :: rest =>
      match widths !! i with
      | None => None
      | Some w =>
          match printCells (S i) rest widths with
          | None => None
          | Some out => Some ("| " +:+ padRight w v +:+ " " +:+ out)
          end
      end
  end.

(** [func printRow(values []string, widths []int)] *)
Definition printRow (values : list string) (widths : list nat) : option string :=
  match printCells 0 values widths with
  | None => None
  | Some out => Some (out +:+ "|" +:+ nl)
  end.

(** [func printSeparator(widths []int)] *)
Definition printSeparator (widths : list nat) : string :=
  foldr (λ w out, "+-" +:+ Repeat "-"%char w +:+ "-" +:+ out) ("+" +:+ nl) widths.

(** [if n > widths[i] { widths[i] = n }] *)
Definition widen (i n : nat) (widths : list nat) : option (list nat) :=
  match widths !! i with
  | None => None
  | Some w => Some (if (w <? n)%nat then <[i := n]> widths else widths)
  end.

(** [key.Tags[tagKey]]: the zero value for a key that is not in the map. *)
Definition tagValueOf (key : KeyInfo) (tagKey : string) : string :=
  default "" (Tags key !! tagKey).

(** [for i, tagKey := range tagKeys { ... widths[i+4] ... }] *)
Fixpoint widenTags (i : nat) (tagKeys : list string) (key : KeyInfo)
  (widths : list nat) : option (list nat) :=
  match tagKeys with
  | [] => Some widths
  | tagKey :: rest =>
      match widen (i + 4) (String.length (tagValueOf key tagKey)) widths with
      | None => None
      | Some widths => widenTags (S i) rest key widths
      end
  end.

(** The body of the loop headed "Calculate max widths from data". *)
Definition widenKey (tagKeys : list string) (key : KeyInfo) (widths : list nat)
  : option (list nat) :=
  widths ← widen 0 (String.length (KeyID key)) widths;
  widths ← widen 1 (String.length (Status key)) widths;
  widths ← widen 2 (String.length (Format (CreationDate key))) widths;
  widths ← widen 3 (String.length (KeyType key)) widths;
  widenTags 0 tagKeys key widths.

Fixpoint widenKeys (tagKeys : list string) (keys : list KeyInfo)
  (widths : list nat) : option (list nat) :=
  match keys with
  | [] => Some widths
  | key :: rest =>
      match widenKey tagKeys key widths with
      | None => None
      | Some widths => widenKeys tagKeys rest widths
      end
  end.

Definition enabledHeaders (tagKeys : list string) : list string :=
  ["Key ID"; "Status"; "Creation Date"; "Key Type"] ++ tagKeys.

(** The widths [printEnabledKeysTable] ends up with. *)
Definition enabledWidths (keys : list KeyInfo) (tagKeys : list string)
  : option (list nat) :=
  widenKeys tagKeys keys (String.length <$> enabledHeaders tagKeys).

(** The cell of a tag column: the placeholder for the empty value. *)
Definition tagCell (key : KeyInfo) (tagKey : string) : string :=
  let tagValue := tagValueOf key tagKey in
  if String.eqb tagValue "" then "-" else tagValue.

(** The [row] built for one key in the loop headed "Print data rows". *)
Definition enabledRow (tagKeys : list string) (key : KeyInfo) : list string :=
  [KeyID key; Status key; Format (CreationDate key); KeyType key]
    ++ (tagCell key <$> tagKeys).

(** The values the width loop measures for one key: those of the row,
    before the placeholder replaces an empty tag value. *)
Definition measuredRow (tagKeys : list string) (key : KeyInfo) : list string :=
  [KeyID key; Status key; Format (CreationDate key); KeyType key]
    ++ (tagValueOf key <$> tagKeys).

(** Column [i] of a list of rows. *)
Definition column (i : nat) (rows : list (list string)) : list string :=
  omap (λ row, row !! i) rows.

(** A row in which every value is written by [padRight] under the width
    of its column. *)
Definition paddedCells (widths : list nat) (values : list string) : string :=
  foldr (λ wv out, "| " +:+ padRight wv.1 wv.2 +:+ " " +:+ out) ""
        (zip widths values).

Definition paddedRow (widths : list nat) (values : list string) : string :=
  paddedCells widths values +:+ "|" +:+ nl.

Definition paddedRows (widths : list nat) (rows : list (list string)) : string :=
  foldr (λ row out, paddedRow widths row +:+ out) "" rows.

Fixpoint printRows (rows : list (list string)) (widths : list nat) : option string :=
  match rows with
  | [] => Some ""
  | row :: rest =>
      out ← printRow row widths;
      outs ← printRows rest widths;
      Some (out +:+ outs)
  end.

(** [func printEnabledKeysTable(keys []KeyInfo, tagKeys []string)]: the
    text written to the standard output. *)
Definition printEnabledKeysTable (keys : list KeyInfo) (tagKeys : list string)
  : option string :=
  widths ← enabledWidths keys tagKeys;
  header ← printRow (enabledHeaders tagKeys) widths;
  rows ← printRows (enabledRow tagKeys <$> keys) widths;
  Some (header +:+ printSeparator widths +:+ rows).

Definition notAuthorizedHeaders : list string := ["Key ID"; "Status"].

Definition notAuthorizedRow (key : KeyInfo) : list string :=
  [KeyID key; Status key].

Fixpoint widenNotAuthorized (keys : list KeyInfo) (widths : list nat)
  : option (list nat) :=
  match keys with
  | [] => Some widths
  | key :: rest =>
      widths ← widen 0 (String.length (KeyID key)) widths;
      widths ← widen 1 (String.length (Status key)) widths;
      widenNotAuthorized rest widths
  end.

Definition notAuthorizedWidths (keys : list KeyInfo) : option (list nat) :=
  widenNotAuthorized keys (String.length <$> notAuthorizedHeaders).

(** [func printNotAuthorizedKeysTable(keys []KeyInfo)] *)
Definition printNotAuthorizedKeysTable (keys : list KeyInfo) : option string :=
  widths ← notAuthorizedWidths keys;
  header ← printRow notAuthorizedHeaders widths;
  rows ← printRows (notAuthorizedRow <$> keys) widths;
  Some (header +:+ printSeparator widths +:+ rows).

(** *** [main] *)

(** The report printed once the records are collected. *)
Definition report (keys : list KeyListEntry) (acc : Acc) : option string :=
  let sortedTagKeys := sortedTagKeys (allTagKeys acc) in
  enabled ←
    (if (0 <? length (enabledKeys acc))%nat then
       table ← printEnabledKeysTable (enabledKeys acc) sortedTagKeys;
       Some ("=== ENABLED KEYS ===" +:+ nl +:+ nl +:+ table)
     else Some "");
  notAuthorized ←
    (if (0 <? length (notAuthorizedKeys acc))%nat then
       table ← printNotAuthorizedKeysTable (notAuthorizedKeys acc);
       Some (nl +:+ "=== NOT AUTHORIZED KEYS ===" +:+ nl +:+ nl +:+ table)
     else Some "");
  Some (enabled +:+ notAuthorized +:+ nl
        +:+ "Total Customer Managed Keys: " +:+ itoa (length keys) +:+ nl
        +:+ "  Enabled: " +:+ itoa (length (enabledKeys acc)) +:+ nl
        +:+ "  Not Authorized: " +:+ itoa (length (notAuthorizedKeys acc)) +:+ nl).

(** [func main()]; [cfg] is the result of [config.LoadDefaultConfig]. *)
Definition main (cfg : result ()) (fuel : nat) (st : State World)
  : Outcome * State World :=
  match cfg with
  | Err err =>
      (Exit 1, Eprint ("Error loading AWS config: " +:+ Error err +:+ nl) st)
  | Ok _ =>
      let '(r, st) := listAllKeys fuel st in
      match r with
      | None => (OutOfFuel, st)
      | Some (Err err) =>
          (Exit 1, Eprint ("Error listing keys: " +:+ Error err +:+ nl) st)
      | Some (Ok keys) =>
          let '(acc, st) := enrichAll keys emptyAcc st in
          match report keys acc with
          | None => (Panic, st)
          | Some out => (Exit 0, Print out st)
          end
      end
  end.

End Program.

End KMS.

(** ** secpq.go: the Secrets Manager exporter

    The file holds two editions of the program.  They share [main],
    [listSecrets] and [isNotAuthorizedError] word for word and differ in
    the record type and in the Parquet library behind [writeParquet]. *)

Module Secrets.

(** *** AWS SDK types, as far as the program reads them *)

Module types.

Record Tag : Type := mkTag {
  Key : option string;
  Value : option string
}.

Record SecretListEntry : Type := mkSecretListEntry {
  Name : option string;
  Description : option string;
  CreatedDate : option Time;
  LastAccessedDate : option Time;
  Tags : list Tag
}.

Record ListSecretsOutput : Type := mkListSecretsOutput {
  SecretList : list SecretListEntry;
  NextToken : option string
}.

End types.

(** [aws.ToString]: the empty string for a nil pointer. *)
Definition ToString (p : option string) : string := default "" p.

(** The calls the exporter issues: the listing call with its answer, and
    the file operations of [writeParquet] with the path they act on. *)
Inductive Call : Type :=
| CallListSecrets (token : option string) (r : result types.ListSecretsOutput)
| CallCreate (filename : string) (r : option error)
| CallNewWriter (filename : string) (r : option error)
| CallWrite (filename : string) (rows : nat) (r : option error)
| CallFinish (filename : string) (r : option error)
| CallClose (filename : string).

Definition isFileCall (c : Call) : bool :=
  match c with CallListSecrets _ _ => false | _ => true end.

(** [*secretsmanager.Client] over the state [World] of the service. *)
Record Client (World : Type) : Type := mkClient {
  ListSecrets : option string → World → result types.ListSecretsOutput * World
}.
Arguments mkClient {World} _.
Arguments ListSecrets {World} _ _ _.

(** The file operations behind [writeParquet], over the state [Disk] of
    the file system, for rows of type [R]: creating (and truncating) the
    file, setting up the Parquet writer, writing rows, finalizing the
    Parquet file, and the deferred close whose error is dropped. *)
Record FileSystem (Disk R : Type) : Type := mkFileSystem {
  fsCreate : string → Disk → option error * Disk;
  fsNewWriter : string → Disk → option error * Disk;
  fsWrite : string → list R → Disk → option error * Disk;
  fsFinish : string → Disk → option error * Disk;
  fsClose : string → Disk → Disk
}.
Arguments mkFileSystem {Disk R} _ _ _ _ _.
Arguments fsCreate {Disk R} _ _ _.
Arguments fsNewWriter {Disk R} _ _ _.
Arguments fsWrite {Disk R} _ _ _ _.
Arguments fsFinish {Disk R} _ _ _.
Arguments fsClose {Disk R} _ _ _.

Record State (World Disk : Type) : Type := mkState {
  world : World;
  disk : Disk;
  calls : list Call;
  stderr : string
}.
Arguments mkState {World Disk} _ _ _ _.
Arguments world {World Disk} _.
Arguments disk {World Disk} _.
Arguments calls {World Disk} _.
Arguments stderr {World Disk} _.

(** Readings of a call log: the secrets of the pages that were listed,
    the error of the first listing request that failed, and the calls
    issued between two states of a run. *)
Definition listedSecrets (cs : list Call) : list types.SecretListEntry :=
  cs ≫= (λ c, match c with CallListSecrets _ (Ok page) => types.SecretList page | _ => [] end).

Definition listingFailure (cs : list Call) : option error :=
  head (omap (λ c, match c with CallListSecrets _ (Err err) => Some err | _ => None end) cs).

Definition newCalls {World Disk : Type} (st st' : State World Disk) : list Call :=
  drop (length (calls st)) (calls st').

(** Modelled from the spec: the paginator of the SDK
    ([secretsmanager.NewListSecretsPaginator]) is not among the sources.
    It starts with an absent continuation token, reports more pages before
    the first request and afterwards as long as the last answer carried a
    non-empty token, and [NextPage] sends the token of the last answer; a
    failed request leaves the paginator as it was. *)
Record Paginator : Type := mkPaginator {
  firstPage : bool;
  nextToken : option string
}.

Definition NewListSecretsPaginator : Paginator := mkPaginator true None.

Definition HasMorePages (p : Paginator) : bool :=
  firstPage p ||
  match nextToken p with
  | Some t => negb (String.eqb t "")
  | None => false
  end.

(** [func isNotAuthorizedError(err error) bool] *)
Definition isNotAuthorizedError (err : error) : bool :=
  match ErrorCode err with
  | Some code =>
      String.eqb code "AccessDeniedException" ||
      String.eqb code "UnauthorizedOperation" ||
      String.eqb code "UnauthorizedException" ||
      Contains code "NotAuthorized"
  | None => false
  end.

(** A listing request that was answered with a page. *)
Definition fetchedPage (c : Call) : bool :=
  match c with
  | CallListSecrets _ (Ok _) => true
  | _ => false
  end.

Definition notAuthorizedWarning : string :=
  "Warning: Not authorized to list secrets, skipping..." +:+ nl.

Section Program.

Context {World Disk R : Type}.

Definition issue (w : World) (c : Call) (st : State World Disk) : State World Disk :=
  mkState w (disk st) (calls st ++ [c]) (stderr st).

Definition issueFile (d : Disk) (c : Call) (st : State World Disk) : State World Disk :=
  mkState (world st) d (calls st ++ [c]) (stderr st).

Definition Eprint (s : string) (st : State World Disk) : State World Disk :=
  mkState (world st) (disk st) (calls st) (stderr st +:+ s).

Variable client : Client World.

Definition callListSecrets (token : option string) (st : State World Disk)
  : result types.ListSecretsOutput * State World Disk :=
  let '(r, w) := ListSecrets client token (world st) in
  (r, issue w (CallListSecrets token r) st).

(** [paginator.NextPage(ctx)] *)
Definition NextPage (p : Paginator) (st : State World Disk)
  : result types.ListSecretsOutput * Paginator * State World Disk :=
  if negb (HasMorePages p) then
    (Err (mkError "no more pages available" None), p, st)
  else
    let '(r, st) := callListSecrets (nextToken p) st in
    match r with
    | Err err => (Err err, p, st)
    | Ok page => (Ok page, mkPaginator false (types.NextToken page), st)
    end.

(** The record built from one listed secret; each edition has its own. *)
Variable recordOf : types.SecretListEntry → R.

(** [for paginator.HasMorePages() { ... }]; [fuel] bounds the number of
    pages. *)
Fixpoint listSecrets_loop (fuel : nat) (paginator : Paginator) (secrets : list R)
  (st : State World Disk) : option (result (list R)) * State World Disk :=
  match fuel with
  | O => (None, st)
  | S fuel =>
      if HasMorePages paginator then
        let '(r, paginator, st) := NextPage paginator st in
        match r with
        | Err err =>
            if isNotAuthorizedError err
            then (Some (Ok secrets), Eprint notAuthorizedWarning st)
            else (Some (Err (Errorf_w "failed to list secrets: " err)), st)
        | Ok page =>
            listSecrets_loop fuel paginator
              (secrets ++ (recordOf <$> types.SecretList page)) st
        end
      else (Some (Ok secrets), st)
  end.

(** [func listSecrets(ctx, client) ([]SecretRecord, error)] *)
Definition listSecrets (fuel : nat) (st : State World Disk)
  : option (result (list R)) * State World Disk :=
  listSecrets_loop fuel NewListSecretsPaginator [] st.

Variable writeParquet :
  string → list R → State World Disk → option error * State World Disk.

(** [func main()]; [output] is the value of the flag of that name and
    [cfg] the result of [loadAWSConfig], which only forwards the other two
    flags to the SDK. *)
Definition main (output : string) (cfg : result ()) (fuel : nat)
  (st : State World Disk) : Outcome * State World Disk :=
  match cfg with
  | Err err =>
      (Exit 1, Eprint ("Error loading AWS config: " +:+ Error err +:+ nl) st)
  | Ok _ =>
      let '(r, st) := listSecrets fuel st in
      match r with
      | None => (OutOfFuel, st)
      | Some (Err err) =>
          (Exit 1, Eprint ("Error listing secrets: " +:+ Error err +:+ nl) st)
      | Some (Ok secrets) =>
          if (length secrets =? 0)%nat then
            (Exit 0, Eprint ("No secrets found" +:+ nl) st)
          else
            let '(e, st) := writeParquet output secrets st in
            match e with
            | Some err =>
                (Exit 1, Eprint ("Error writing parquet: " +:+ Error err +:+ nl) st)
            | None =>
                (Exit 0, Eprint ("Wrote " +:+ itoa (length secrets)
                                 +:+ " secrets to " +:+ output +:+ nl) st)
            end
      end
  end.

(** The file operations as the program issues them. *)
Variable fs : FileSystem Disk R.

Definition callCreate (filename : string) (st : State World Disk)
  : option error * State World Disk :=
  let '(e, d) := fsCreate fs filename (disk st) in
  (e, issueFile d (CallCreate filename e) st).

Definition callNewWriter (filename : string) (st : State World Disk)
  : option error * State World Disk :=
  let '(e, d) := fsNewWriter fs filename (disk st) in
  (e, issueFile d (CallNewWriter filename e) st).

Definition callWrite (filename : string) (rows : list R) (st : State World Disk)
  : option error * State World Disk :=
  let '(e, d) := fsWrite fs filename rows (disk st) in
  (e, issueFile d (CallWrite filename (length rows) e) st).

Definition callFinish (filename : string) (st : State World Disk)
  : option error * State World Disk :=
  let '(e, d) := fsFinish fs filename (disk st) in
  (e, issueFile d (CallFinish filename e) st).

Definition callClose (filename : string) (st : State World Disk)
  : State World Disk :=
  issueFile (fsClose fs filename (disk st)) (CallClose filename) st.

End Program.

(** [for _, tag := range secret.Tags { record.Tags[key] = value }] over a
    fresh map. *)
Definition tagMap (tags : list types.Tag) : gmap string string :=
  foldl (λ m tag, <[ToString (types.Key tag) := ToString (types.Value tag)]> m) ∅ tags.

(** [days := int32(t.Unix() / 86400)]; Go's [/] truncates toward zero. *)
Definition daysOf (t : Time) : Z := int32 (Z.quot (Unix t) 86400).

(** *** First edition: parquet-go *)

Module ParquetGo.

(** [type SecretRecord struct]; a nil pointer or nil map is [None], which
    the writer stores as a null of the optional column. *)
Record SecretRecord : Type := mkSecretRecord {
  Name : string;
  Description : option string;
  CreatedDate : option Time;
  LastAccessedDate : option Z;
  Tags : option (gmap string string)
}.

(** The body of [for _, secret := range page.SecretList]. *)
Definition recordOf (secret : types.SecretListEntry) : SecretRecord :=
  {| Name := ToString (types.Name secret);
     Description :=
       match types.Description secret with
       | Some d => if negb (String.eqb d "") then Some d else None
       | None => None
       end;
     CreatedDate := types.CreatedDate secret;
     LastAccessedDate := daysOf <$> types.LastAccessedDate secret;
     Tags :=
       if (0 <? length (types.Tags secret))%nat
       then Some (tagMap (types.Tags secret))
       else None |}.

Section Program.

Context {World Disk : Type}.
Variable client : Client World.
Variable fs : FileSystem Disk SecretRecord.

Definition listSecrets := Secrets.listSecrets (Disk:=Disk) client recordOf.

(** [func writeParquet(filename string, secrets []SecretRecord) error].
    [parquet.NewGenericWriter] cannot fail; [defer file.Close()] runs on
    every return after the file was created. *)
Definition writeParquet (filename : string) (secrets : list SecretRecord)
  (st : State World Disk) : option error * State World Disk :=
  let '(e, st) := callCreate fs filename st in
  match e with
  | Some err => (Some (Errorf_w "failed to create file: " err), st)
  | None =>
      let '(e, st) := callWrite fs filename secrets st in
      match e with
      | Some err =>
          (Some (Errorf_w "failed to write records: " err), callClose fs filename st)
      | None =>
          let '(e, st) := callFinish fs filename st in
          match e with
          | Some err =>
              (Some (Errorf_w "failed to close writer: " err), callClose fs filename st)
          | None => (None, callClose fs filename st)
          end
      end
  end.

Definition main := Secrets.main client recordOf writeParquet.

End Program.

End ParquetGo.

(** *** Second edition: xitongsys/parquet-go *)

Module Xitongsys.

(** [type SecretRecord struct]: both dates are [*int32] days. *)
Record SecretRecord : Type := mkSecretRecord {
  Name : string;
  Description : option string;
  CreatedDate : option Z;
  LastAccessedDate : option Z;
  Tags : option (gmap string string)
}.

(** The body of [for _, secret := range page.SecretList]. *)
Definition recordOf (secret : types.SecretListEntry) : SecretRecord :=
  {| Name := ToString (types.Name secret);
     Description :=
       match types.Description secret with
       | Some d => if negb (String.eqb d "") then Some d else None
       | None => None
       end;
     CreatedDate := daysOf <$> types.CreatedDate secret;
     LastAccessedDate := daysOf <$> types.LastAccessedDate secret;
     Tags :=
       if (0 <? length (types.Tags secret))%nat
       then Some (tagMap (types.Tags secret))
       else None |}.

Section Program.

Context {World Disk : Type}.
Variable client : Client World.
Variable fs : FileSystem Disk SecretRecord.

Definition listSecrets := Secrets.listSecrets (Disk:=Disk) client recordOf.

(** [for _, record := range secrets { pw.Write(record) }] *)
Fixpoint writeRecords (filename : string) (secrets : list SecretRecord)
  (st : State World Disk) : option error * State World Disk :=
  match secrets with
  | [] => (None, st)
  | record :: rest =>
      let '(e, st) := callWrite fs filename [record] st in
      match e with
      | Some err => (Some err, st)
      | None => writeRecords filename rest st
      end
  end.

(** [func writeParquet(filename string, secrets []SecretRecord) error];
    [defer fw.Close()] runs on every return after the file was created. *)
Definition writeParquet (filename : string) (secrets : list SecretRecord)
  (st : State World Disk) : option error * State World Disk :=
  let '(e, st) := callCreate fs filename st in
  match e with
  | Some err => (Some (Errorf_w "failed to create file: " err), st)
  | None =>
      let '(e, st) := callNewWriter fs filename st in
      match e with
      | Some err =>
          (Some (Errorf_w "failed to create parquet writer: " err),
           callClose fs filename st)
      | None =>
          let '(e, st) := writeRecords filename secrets st in
          match e with
          | Some err =>
              (Some (Errorf_w "failed to write record: " err), callClose fs filename st)
          | None =>
              let '(e, st) := callFinish fs filename st in
              match e with
              | Some err =>
                  (Some (Errorf_w "failed to finalize parquet: " err),
                   callClose fs filename st)
              | None => (None, callClose fs filename st)
              end
          end
      end
  end.

Definition main := Secrets.main client recordOf writeParquet.

End Program.

End Xitongsys.

End Secrets.

(** ** Sample services

    Small concrete services and runs, over a service state that is a
    counter of the listing requests served so far. *)

Module Sample.

(** Keys of every map in the order of [map_to_list]. *)
Definition inOrder (V : Type) (m : gmap string V) : list string :=
  (map_to_list m).*1.

(** Keys of every map in the reverse of that order. *)
Definition reversed (V : Type) (m : gmap string V) : list string :=
  reverse (map_to_list m).*1.

(** A stand-in for the layout "2006-01-02 15:04:05": every instant prints
    as the same 19 bytes. *)
Definition fixedFormat (t : Time) : string := "2024-05-17 08:30:00".

(** Rune count of ASCII text. *)
Definition asciiRunes (s : string) : nat := String.length s.

Definition st0 : KMS.State nat := KMS.mkState 0 [] "" "".

Definition key1 : KMS.KeyListEntry := KMS.mkKeyListEntry "k1" "arn:aws:kms:k1".
Definition key2 : KMS.KeyListEntry := KMS.mkKeyListEntry "k2" "arn:aws:kms:k2".

Definition disabledMeta : KMS.KeyMetadata :=
  KMS.mkKeyMetadata "CUSTOMER" "Disabled" None "SYMMETRIC_DEFAULT".
Definition enabledMeta : KMS.KeyMetadata :=
  KMS.mkKeyMetadata "CUSTOMER" "Enabled" None "SYMMETRIC_DEFAULT".
Definition awsManagedMeta : KMS.KeyMetadata :=
  KMS.mkKeyMetadata "AWS" "Enabled" None "SYMMETRIC_DEFAULT".

Definition accessDeniedError : error :=
  mkError "operation error KMS: DescribeKey, api error AccessDeniedException: User is not authorized to perform: kms:DescribeKey"
          (Some "AccessDeniedException").

(** One page with the single key k1, which is customer managed and
    disabled. *)
Definition oneDisabledKey : KMS.Client nat :=
  KMS.mkClient
    (λ _ w, (Ok (KMS.mkListKeysOutput [key1] false None), S w))
    (λ _ w, (Ok disabledMeta, w))
    (λ _ w, (Ok [], w)).

(** Every detail call is denied. *)
Definition deniedDetails : KMS.Client nat :=
  KMS.mkClient
    (λ _ w, (Ok (KMS.mkListKeysOutput [key1] false None), S w))
    (λ _ w, (Err accessDeniedError, w))
    (λ _ w, (Ok [], w)).

(** The key is enabled and its tags cannot be read. *)
Definition deniedTags : KMS.Client nat :=
  KMS.mkClient
    (λ _ w, (Ok (KMS.mkListKeysOutput [key1] false None), S w))
    (λ _ w, (Ok enabledMeta, w))
    (λ _ w, (Err accessDeniedError, w)).


Definition key3 : KMS.KeyListEntry := KMS.mkKeyListEntry "k3" "arn:aws:kms:k3".

(** One page of three keys: k1 is customer managed, k2 is managed by AWS
    and the lookup of k3 is denied. *)
Definition mixedKeys : KMS.Client nat :=
  KMS.mkClient
    (λ _ w, (Ok (KMS.mkListKeysOutput [key1; key2; key3] false None), S w))
    (λ id w, if String.eqb id "k1" then (Ok enabledMeta, w)
             else if String.eqb id "k2" then (Ok awsManagedMeta, w)
             else (Err accessDeniedError, w))
    (λ _ w, (Ok [], w)).



(** Two enabled records, tagged Env=prod and Team=x, and one without
    tags. *)
Definition envRecord : KMS.KeyInfo :=
  KMS.mkKeyInfo "k1" "Enabled" zeroTime "SYMMETRIC_DEFAULT" {["Env" := "prod"]}.
Definition teamRecord : KMS.KeyInfo :=
  KMS.mkKeyInfo "k2" "Enabled" zeroTime "SYMMETRIC_DEFAULT" {["Team" := "x"]}.
Definition bareRecord : KMS.KeyInfo :=
  KMS.mkKeyInfo "k3" "Enabled" zeroTime "RSA_2048" ∅.

(** Listed secrets: one last accessed on 2023-11-14 at 22:13:20 UTC, one
    last accessed 2^31 days after the epoch, one without a description
    and one with the empty description. *)
Definition accessedSecret : Secrets.types.SecretListEntry :=
  Secrets.types.mkSecretListEntry (Some "api/key") (Some "API key") None
    (Some (mkTime 1700000000 0)) [].
Definition undescribedSecret : Secrets.types.SecretListEntry :=
  Secrets.types.mkSecretListEntry (Some "api/key") None None None [].
Definition emptyDescriptionSecret : Secrets.types.SecretListEntry :=
  Secrets.types.mkSecretListEntry (Some "api/key") (Some "") None None [].

(** One enabled key with the tags Team=a, Env=prod, Team=b, in that
    order. *)
Definition taggedKey : KMS.Client nat :=
  KMS.mkClient
    (λ _ w, (Ok (KMS.mkListKeysOutput [key1] false None), S w))
    (λ _ w, (Ok enabledMeta, w))
    (λ _ w, (Ok [KMS.mkTag "Team" "a"; KMS.mkTag "Env" "prod"; KMS.mkTag "Team" "b"], w)).


(** A listed secret with the tags env=dev, env=prod and one tag whose
    key and value are nil. *)
Definition taggedSecret : Secrets.types.SecretListEntry :=
  Secrets.types.mkSecretListEntry (Some "db/password") (Some "database") None None
    [Secrets.types.mkTag (Some "env") (Some "dev");
     Secrets.types.mkTag (Some "env") (Some "prod");
     Secrets.types.mkTag None None].

(** One page with that secret. *)
Definition oneSecret : Secrets.Client nat :=
  Secrets.mkClient
    (λ _ w, (Ok (Secrets.types.mkListSecretsOutput [taggedSecret] None), S w)).

(** The exporter: a disk that maps a path to the rows written to it, and
    file operations that never fail. *)
Definition plainDisk (R : Type) : Secrets.FileSystem (gmap string (list R)) R :=
  Secrets.mkFileSystem
    (λ filename d, (None, <[filename := []]> d))
    (λ filename d, (None, d))
    (λ filename rows d, (None, <[filename := default [] (d !! filename) ++ rows]> d))
    (λ filename d, (None, d))
    (λ filename d, d).

Definition sst0 (R : Type) : Secrets.State nat (gmap string (list R)) :=
  Secrets.mkState 0 ∅ [] "".






(** One empty page. *)
Definition noSecrets : Secrets.Client nat :=
  Secrets.mkClient (λ _ w, (Ok (Secrets.types.mkListSecretsOutput [] None), S w)).

End Sample.

(** * Properties *)

(** ** Go library facts *)

Lemma append_nil_l (t : string) : "" +:+ t = t.
Proof. reflexivity. Qed.

Lemma append_cons (a : Ascii.ascii) (s t : string) :
  String a s +:+ t = String a (s +:+ t).
Proof. reflexivity. Qed.

Lemma append_assoc (s t u : string) : (s +:+ t) +:+ u = s +:+ (t +:+ u).
Proof.
  induction s as [|a s IH]; [reflexivity|].
  rewrite !append_cons. by rewrite IH.
Qed.

Lemma append_nil_inv (s t : string) : s +:+ t = "" → s = "".
Proof. destruct s; [reflexivity|discriminate]. Qed.

Lemma HasPrefix_spec (s prefix : string) :
  HasPrefix s prefix = true ↔ ∃ rest, s = prefix +:+ rest.
Proof.
  revert s. induction prefix as [|a p IH]; intros s.
  { split; [intros _; by exists s|reflexivity]. }
  destruct s as [|b s]; cbn [HasPrefix].
  { split; [discriminate|]. intros [rest Hr]. discriminate. }
  destruct (Ascii.eqb_spec a b) as [->|Hne].
  - rewrite IH. split.
    + intros [rest ->]. by exists rest.
    + intros [rest Hr]. rewrite append_cons in Hr. injection Hr as ->. by exists rest.
  - split; [discriminate|]. intros [rest Hr]. rewrite append_cons in Hr. congruence.
Qed.

(** [strings.Contains] is the substring relation. *)
Lemma Contains_spec (s substr : string) :
  Contains s substr = true ↔ ∃ before after, s = before +:+ substr +:+ after.
Proof.
  induction s as [|c s IH]; cbn [Contains].
  - rewrite orb_false_r, HasPrefix_spec. split.
    + intros [rest Hr]. by exists "", rest.
    + intros (before & after & Hs). symmetry in Hs.
      pose proof (append_nil_inv _ _ Hs) as ->. by exists after.
  - rewrite orb_true_iff, HasPrefix_spec, IH. split.
    + intros [[rest Hr]|(before & after & ->)].
      * by exists "", rest.
      * by exists (String c before), after.
    + intros ([|c' before] & after & Hs).
      * left. by exists after.
      * right. rewrite append_cons in Hs. injection Hs as -> ->. by exists before, after.
Qed.

Lemma Contains_trans (s t u : string) :
  Contains s t = true → Contains t u = true → Contains s u = true.
Proof.
  rewrite !Contains_spec.
  intros (b1 & a1 & ->) (b2 & a2 & ->).
  exists (b1 +:+ b2), (a2 +:+ a1). by rewrite !append_assoc.
Qed.

Lemma Contains_nil_r (s : string) : Contains s "" = true.
Proof. apply Contains_spec. by exists "", s. Qed.

Lemma int32_small (z : Z) : (- 2 ^ 31 ≤ z < 2 ^ 31)%Z → int32 z = z.
Proof.
  intros Hz. unfold int32, wrap.
  rewrite Z.mod_small by lia. lia.
Qed.


Lemma int32_range (z : Z) : (- 2 ^ 31 ≤ int32 z < 2 ^ 31)%Z.
Proof.
  unfold int32, wrap.
  pose proof (Z.mod_pos_bound (z + 2 ^ (32 - 1)) (2 ^ 32)) as H.
  lia.
Qed.

(** ** The KMS key report *)

Section KMSFacts.

Context {World : Type} (client : KMS.Client World).
Import KMS.

Lemma callDescribeKey_calls (id : string) (st : State World) :
  calls (callDescribeKey client id st).2
  = calls st ++ [CallDescribeKey id (callDescribeKey client id st).1].
Proof. unfold callDescribeKey. destruct (DescribeKey _ _ _); reflexivity. Qed.

Lemma callDescribeKey_streams (id : string) (st : State World) :
  stdout (callDescribeKey client id st).2 = stdout st
  ∧ stderr (callDescribeKey client id st).2 = stderr st.
Proof. unfold callDescribeKey. destruct (DescribeKey _ _ _); split; reflexivity. Qed.

Lemma callListResourceTags_calls (id : string) (st : State World) :
  calls (callListResourceTags client id st).2
  = calls st ++ [CallListResourceTags id (callListResourceTags client id st).1].
Proof. unfold callListResourceTags. destruct (ListResourceTags _ _ _); reflexivity. Qed.

Lemma callListKeys_calls (marker : option string) (st : State World) :
  calls (callListKeys client marker st).2
  = calls st ++ [CallListKeys marker (callListKeys client marker st).1].
Proof. unfold callListKeys. destruct (ListKeys _ _ _); reflexivity. Qed.

(** *** The call log *)

Lemma newCalls_app (st st' : State World) (new : list Call) :
  calls st' = calls st ++ new → newCalls st st' = new.
Proof. unfold newCalls. intros ->. by rewrite drop_app_length. Qed.

Lemma describeCalls_app (cs1 cs2 : list Call) :
  describeCalls (cs1 ++ cs2) = describeCalls cs1 ++ describeCalls cs2.
Proof. apply omap_app. Qed.

Lemma listedKeys_app (cs1 cs2 : list Call) :
  listedKeys (cs1 ++ cs2) = listedKeys cs1 ++ listedKeys cs2.
Proof. apply bind_app. Qed.

Lemma describeCalls_lookupCalls (items : list (KeyListEntry * result KeyMetadata)) :
  describeCalls (lookupCalls items) = (λ kr, (KeyId kr.1, kr.2)) <$> items.
Proof. induction items as [|kr items IH]; [reflexivity|]. simpl. f_equal. exact IH. Qed.

Lemma listedKeys_lookupCalls (items : list (KeyListEntry * result KeyMetadata)) :
  listedKeys (lookupCalls items) = [].
Proof. induction items as [|kr items IH]; simpl; [reflexivity|]. exact IH. Qed.

(** *** The Paginator: [listAllKeys] *)

(** One page: one lookup per key, in order, and the keys kept. *)
Lemma filterKeys_lookups (keys allKeys : list KeyListEntry) (st : State World) :
  ∃ items : list (KeyListEntry * result KeyMetadata),
    items.*1 = keys
    ∧ calls (filterKeys client keys allKeys st).2 = calls st ++ lookupCalls items
    ∧ (filterKeys client keys allKeys st).1
      = allKeys ++ (filter (λ kr, keepKey kr.2 = true) items).*1
    ∧ stdout (filterKeys client keys allKeys st).2 = stdout st
    ∧ stderr (filterKeys client keys allKeys st).2 = stderr st.
Proof.
  revert allKeys st. induction keys as [|key rest IH]; intros allKeys st.
  { exists []. simpl. by rewrite !app_nil_r. }
  simpl.
  pose proof (callDescribeKey_calls (KeyId key) st) as Hc.
  pose proof (callDescribeKey_streams (KeyId key) st) as [Ho He].
  destruct (callDescribeKey client (KeyId key) st) as [r st1]. simpl in Hc, Ho, He.
  assert (∃ allKeys1,
            (match r with
             | Ok describeOutput =>
                 if String.eqb (KeyManager describeOutput) KeyManagerTypeCustomer
                 then filterKeys client rest (allKeys ++ [key]) st1
                 else filterKeys client rest allKeys st1
             | Err _ => filterKeys client rest (allKeys ++ [key]) st1
             end) = filterKeys client rest allKeys1 st1
            ∧ allKeys1 = allKeys ++ (filter (λ kr, keepKey kr.2 = true) [(key, r)]).*1)
    as (allKeys1 & -> & Hk).
  { destruct r as [meta|err]; cbv iota.
    - destruct (String.eqb (KeyManager meta) KeyManagerTypeCustomer) eqn:Hm.
      + exists (allKeys ++ [key]). split; [done|].
        rewrite filter_cons_True by (simpl; by rewrite Hm). done.
      + exists allKeys. split; [done|].
        rewrite filter_cons_False by (simpl; rewrite Hm; discriminate).
        simpl. by rewrite app_nil_r.
    - exists (allKeys ++ [key]). split; [done|].
      rewrite filter_cons_True by done. done. }
  destruct (IH allKeys1 st1) as (items & Hi & Hcalls & Hkept & Hout & Herr).
  exists ((key, r) :: items).
  split; [by rewrite fmap_cons, Hi|].
  split.
  { rewrite Hcalls, Hc. unfold lookupCalls. by rewrite fmap_cons, <- app_assoc. }
  split.
  { rewrite Hkept, Hk, <- app_assoc, <- fmap_app. f_equal. f_equal.
    change ((key, r) :: items) with ([(key, r)] ++ items). by rewrite filter_app. }
  split; congruence.
Qed.


Lemma listingFailure_lookupCalls (items : list (KeyListEntry * result KeyMetadata))
    (new : list Call) :
  listingFailure (lookupCalls items ++ new) = listingFailure new.
Proof. induction items as [|kr items IH]; [reflexivity|]. exact IH. Qed.

(** A run of [listAllKeys] whose log shows a failed listing request ended
    with that error; the listing prints nothing. *)
Lemma listAllKeys_loop_outcome (fuel : nat) (allKeys : list KeyListEntry)
    (marker : option string) (st : State World) :
  let r := (listAllKeys_loop client fuel allKeys marker st).1 in
  let st' := (listAllKeys_loop client fuel allKeys marker st).2 in
  ∃ new : list Call,
    calls st' = calls st ++ new
    ∧ stdout st' = stdout st ∧ stderr st' = stderr st
    ∧ match listingFailure new with
      | Some err => r = Some (Err err)
      | None => r = None ∨ ∃ keys, r = Some (Ok keys)
      end.
Proof.
  simpl. revert allKeys marker st.
  induction fuel as [|fuel IH]; intros allKeys marker st.
  { exists []. simpl. rewrite app_nil_r. repeat split; auto. }
  simpl.
  pose proof (callListKeys_calls marker st) as Hc.
  assert (stdout (callListKeys client marker st).2 = stdout st
          ∧ stderr (callListKeys client marker st).2 = stderr st) as [Ho He].
  { unfold callListKeys. by destruct (ListKeys _ _ _). }
  destruct (callListKeys client marker st) as [[output|err] st1]; simpl in Hc, Ho, He.
  - destruct (filterKeys_lookups (Keys output) allKeys st1)
      as (items1 & _ & Hc1 & _ & Ho1 & He1).
    destruct (filterKeys client (Keys output) allKeys st1) as [allKeys1 st2].
    simpl in Hc1, Ho1, He1.
    destruct (Truncated output); simpl.
    + destruct (IH allKeys1 (NextMarker output) st2) as (new2 & Hc2 & Ho2 & He2 & Hout).
      exists (CallListKeys marker (Ok output) :: lookupCalls items1 ++ new2).
      split; [by rewrite Hc2, Hc1, Hc, <- !app_assoc|].
      split; [congruence|]. split; [congruence|].
      change (listingFailure (CallListKeys marker (Ok output) :: lookupCalls items1 ++ new2))
        with (listingFailure (lookupCalls items1 ++ new2)).
      by rewrite listingFailure_lookupCalls.
    + exists (CallListKeys marker (Ok output) :: lookupCalls items1 ++ []).
      split; [by rewrite app_nil_r, Hc1, Hc, <- !app_assoc|].
      split; [congruence|]. split; [congruence|].
      change (listingFailure (CallListKeys marker (Ok output) :: lookupCalls items1 ++ []))
        with (listingFailure (lookupCalls items1 ++ [])).
      rewrite listingFailure_lookupCalls. simpl. eauto.
  - exists [CallListKeys marker (Err err)]. simpl. repeat split; auto.
Qed.

Lemma announcesMore_lookupCalls (items : list (KeyListEntry * result KeyMetadata)) :
  filter (λ c, announcesMore c = true) (lookupCalls items) = [].
Proof.
  induction items as [|kr items IH]; [reflexivity|].
  unfold lookupCalls. rewrite fmap_cons.
  rewrite filter_cons_False by (simpl; discriminate). exact IH.
Qed.

(** The page budget is used up only when every one of the [fuel] listing
    requests was answered with a page announcing more: against a service
    that ends its listing, a larger budget makes [listAllKeys] return. *)
Lemma listAllKeys_loop_out_of_fuel (fuel : nat) (allKeys : list KeyListEntry)
    (marker : option string) (st : State World) :
  (listAllKeys_loop client fuel allKeys marker st).1 = None →
  length (filter (λ c, announcesMore c = true)
            (newCalls st (listAllKeys_loop client fuel allKeys marker st).2)) = fuel.
Proof.
  enough (∃ new, calls (listAllKeys_loop client fuel allKeys marker st).2 = calls st ++ new
                 ∧ ((listAllKeys_loop client fuel allKeys marker st).1 = None →
                    length (filter (λ c, announcesMore c = true) new) = fuel))
    as (new & Hc & Hn).
  { by rewrite (newCalls_app _ _ _ Hc). }
  revert allKeys marker st. induction fuel as [|fuel IH]; intros allKeys marker st.
  { exists []. simpl. by rewrite app_nil_r. }
  simpl.
  pose proof (callListKeys_calls marker st) as Hc.
  destruct (callListKeys client marker st) as [[output|err] st1]; simpl in Hc.
  - destruct (filterKeys_lookups (Keys output) allKeys st1)
      as (items1 & _ & Hc1 & _ & _ & _).
    destruct (filterKeys client (Keys output) allKeys st1) as [allKeys1 st2].
    simpl in Hc1.
    destruct (Truncated output) eqn:Htr; simpl.
    + destruct (IH allKeys1 (NextMarker output) st2) as (new2 & Hc2 & Hn2).
      exists (CallListKeys marker (Ok output) :: lookupCalls items1 ++ new2).
      split; [by rewrite Hc2, Hc1, Hc, <- !app_assoc|].
      intros Hnone. rewrite filter_cons_True by (simpl; exact Htr).
      rewrite filter_app, announcesMore_lookupCalls. simpl. by rewrite Hn2.
    + exists (CallListKeys marker (Ok output) :: lookupCalls items1).
      split; [by rewrite Hc1, Hc, <- !app_assoc|]. discriminate.
  - exists [CallListKeys marker (Err err)]. split; [exact Hc|]. discriminate.
Qed.

(** *** The Enricher: [getKeyInfo] *)

Lemma accessDenied_of_code (err : error) (code : string) :
  Contains (Error err) code = true → Contains code "AccessDenied" = true →
  accessDenied err = true.
Proof.
  intros Htext Hcode. unfold accessDenied.
  by rewrite (Contains_trans _ _ _ Htext Hcode).
Qed.

(** C2.  When the detail call fails, [getKeyInfo] issues that one call and
    returns a record that carries the identifier, no tags and no other
    field: its status is "Not Authorized" when the error has the
    access-denied signature of [getKeyInfo] (its text contains
    "AccessDenied" or "not authorized"), and "Error: " followed by the
    text otherwise.  In particular an API error whose text shows its code,
    as the SDK prints it, and whose code contains "AccessDenied" gives
    "Not Authorized" whatever the rest of the text is.  [getKeyInfo] is a
    total function, so enrichment itself cannot fail. *)
Theorem getKeyInfo_detail_failure (keyID : string) (st : State World)
    (err : error) (w : World) :
  DescribeKey client keyID (world st) = (Err err, w) →
  let info := (getKeyInfo client keyID st).1 in
  let st' := (getKeyInfo client keyID st).2 in
  Tags info = ∅
  ∧ Status info = (if accessDenied err then "Not Authorized"
                   else "Error: " +:+ Error err)
  ∧ (∀ code, ErrorCode err = Some code →
       Contains (Error err) code = true → Contains code "AccessDenied" = true →
       Status info = "Not Authorized")
  ∧ KeyID info = keyID ∧ CreationDate info = zeroTime ∧ KeyType info = ""
  ∧ calls st' = calls st ++ [CallDescribeKey keyID (Err err)]
  ∧ world st' = w.
Proof.
  intros Hd. unfold getKeyInfo, callDescribeKey. rewrite Hd. simpl.
  destruct (accessDenied err) eqn:Hsig; simpl; repeat split; try reflexivity.
  intros code _ Htext Hcode.
  by rewrite (accessDenied_of_code err code Htext Hcode) in Hsig.
Qed.

(** C6.  When the detail call succeeds, the status is the returned state.
    For a state other than "Enabled" the detail call is the only call
    issued, so no tag call is, and the tags are empty.  For the state
    "Enabled" one tag call follows; when it fails the record keeps the
    status "Enabled" and has no tags. *)
Theorem getKeyInfo_tag_policy (keyID : string) (st : State World)
    (describeOutput : KeyMetadata) (w : World) :
  DescribeKey client keyID (world st) = (Ok describeOutput, w) →
  let info := (getKeyInfo client keyID st).1 in
  let st' := (getKeyInfo client keyID st).2 in
  Status info = KeyState describeOutput
  ∧ (KeyState describeOutput ≠ KeyStateEnabled →
       Tags info = ∅
       ∧ calls st' = calls st ++ [CallDescribeKey keyID (Ok describeOutput)]
       ∧ world st' = w)
  ∧ (KeyState describeOutput = KeyStateEnabled →
       ∀ r w', ListResourceTags client keyID w = (r, w') →
         calls st' = calls st ++ [CallDescribeKey keyID (Ok describeOutput);
                                  CallListResourceTags keyID r]
         ∧ (∀ err, r = Err err → Tags info = ∅ ∧ Status info = "Enabled")
         ∧ (∀ tags, r = Ok tags → Tags info = addTags tags ∅)).
Proof.
  intros Hd. unfold getKeyInfo, callDescribeKey. rewrite Hd. simpl.
  destruct (String.eqb_spec (KeyState describeOutput) KeyStateEnabled) as [He|Hne].
  - unfold callListResourceTags. simpl.
    destruct (ListResourceTags client keyID w) as [r0 w0] eqn:Ht.
    split.
    { destruct r0, (MetaCreationDate describeOutput); reflexivity. }
    split; [intros Hne; contradiction|].
    intros _ r w' Hr. injection Hr as <- <-.
    split; [|split].
    + destruct r0; simpl; rewrite <- app_assoc; reflexivity.
    + intros err ->. simpl.
      destruct (MetaCreationDate describeOutput); simpl; split; auto.
    + intros tags ->. simpl.
      destruct (MetaCreationDate describeOutput); reflexivity.
  - split.
    { destruct (MetaCreationDate describeOutput); reflexivity. }
    split; [|intros He; contradiction].
    intros _. destruct (MetaCreationDate describeOutput); simpl; auto.
Qed.

Lemma getKeyInfo_KeyID (keyID : string) (st : State World) :
  KeyID (getKeyInfo client keyID st).1 = keyID.
Proof.
  unfold getKeyInfo. destruct (callDescribeKey client keyID st) as [[meta|err] st1].
  - destruct (String.eqb _ _).
    + destruct (callListResourceTags client keyID st1) as [[tags|e] st2];
        destruct (MetaCreationDate meta); reflexivity.
    + destruct (MetaCreationDate meta); reflexivity.
  - destruct (accessDenied err); reflexivity.
Qed.

(** *** The loop of [main] *)

Section Collect.

Variable rangeKeys : ∀ V : Type, gmap string V → list string.

Lemma enrichAll_enrichList (keys : list KeyListEntry) (acc : Acc) (st : State World) :
  enrichAll client rangeKeys keys acc st
  = (foldl (collect rangeKeys) acc (enrichList client keys st).1,
     (enrichList client keys st).2).
Proof.
  revert acc st. induction keys as [|key rest IH]; intros acc st; simpl; [reflexivity|].
  destruct (getKeyInfo client (KeyId key) st) as [keyInfo st1].
  rewrite IH. destruct (enrichList client rest st1); reflexivity.
Qed.

Lemma enrichList_length (keys : list KeyListEntry) (st : State World) :
  length (enrichList client keys st).1 = length keys.
Proof.
  revert st. induction keys as [|key rest IH]; intros st; simpl; [reflexivity|].
  destruct (getKeyInfo client (KeyId key) st) as [keyInfo st1].
  specialize (IH st1). destruct (enrichList client rest st1). simpl in *. lia.
Qed.

Lemma enrichList_KeyID (keys : list KeyListEntry) (st : State World) :
  KeyID <$> (enrichList client keys st).1 = KeyId <$> keys.
Proof.
  revert st. induction keys as [|key rest IH]; intros st; simpl; [reflexivity|].
  pose proof (getKeyInfo_KeyID (KeyId key) st) as Hk.
  destruct (getKeyInfo client (KeyId key) st) as [keyInfo st1].
  specialize (IH st1). destruct (enrichList client rest st1) as [infos st2].
  simpl in Hk, IH. simpl. rewrite Hk. f_equal. exact IH.
Qed.

Lemma collect_enabledKeys (infos : list KeyInfo) (acc : Acc) :
  enabledKeys (foldl (collect rangeKeys) acc infos)
  = enabledKeys acc ++ filter (λ i, Status i = "Enabled") infos.
Proof.
  revert acc. induction infos as [|i rest IH]; intros acc; simpl.
  { by rewrite app_nil_r. }
  rewrite IH. unfold collect.
  destruct (String.eqb_spec (Status i) "Not Authorized") as [Hn|Hn].
  { rewrite filter_cons_False by (rewrite Hn; discriminate). reflexivity. }
  destruct (String.eqb_spec (Status i) "Enabled") as [He|He].
  - rewrite filter_cons_True by done. simpl. by rewrite <- app_assoc.
  - by rewrite filter_cons_False.
Qed.

Lemma collect_notAuthorizedKeys (infos : list KeyInfo) (acc : Acc) :
  notAuthorizedKeys (foldl (collect rangeKeys) acc infos)
  = notAuthorizedKeys acc ++ filter (λ i, Status i = "Not Authorized") infos.
Proof.
  revert acc. induction infos as [|i rest IH]; intros acc; simpl.
  { by rewrite app_nil_r. }
  rewrite IH. unfold collect.
  destruct (String.eqb_spec (Status i) "Not Authorized") as [Hn|Hn].
  { rewrite filter_cons_True by done. simpl. by rewrite <- app_assoc. }
  rewrite filter_cons_False by done.
  destruct (String.eqb_spec (Status i) "Enabled"); reflexivity.
Qed.

Lemma status_partition (infos : list KeyInfo) :
  length (filter (λ i, Status i = "Enabled") infos)
  + length (filter (λ i, Status i = "Not Authorized") infos)
  + length (filter (λ i, Status i ≠ "Enabled" ∧ Status i ≠ "Not Authorized") infos)
  = length infos.
Proof.
  induction infos as [|i rest IH]; [reflexivity|].
  destruct (decide (Status i = "Enabled")) as [He|He].
  - rewrite filter_cons_True by done.
    rewrite filter_cons_False by (rewrite He; discriminate).
    rewrite filter_cons_False by tauto. simpl. lia.
  - rewrite filter_cons_False by done.
    destruct (decide (Status i = "Not Authorized")) as [Hn|Hn].
    + rewrite filter_cons_True by done.
      rewrite filter_cons_False by tauto. simpl. lia.
    + rewrite filter_cons_False by done.
      rewrite filter_cons_True by tauto. simpl. lia.
Qed.

(** C1, as the code has it.  [getKeyInfo] returns exactly one record for
    every listed identifier, in order and under that identifier.  The
    report keeps the records whose status is "Enabled" in its first table
    and those whose status is "Not Authorized" in its second; the records
    of any other status are in neither, so the two tables together hold
    at most as many records as identifiers were listed. *)
Theorem enrichAll_partitions (keys : list KeyListEntry) (st : State World) :
  let infos := (enrichList client keys st).1 in
  let acc := (enrichAll client rangeKeys keys emptyAcc st).1 in
  length infos = length keys
  ∧ KeyID <$> infos = KeyId <$> keys
  ∧ enabledKeys acc = filter (λ i, Status i = "Enabled") infos
  ∧ notAuthorizedKeys acc = filter (λ i, Status i = "Not Authorized") infos
  ∧ length (enabledKeys acc) + length (notAuthorizedKeys acc)
    + length (filter (λ i, Status i ≠ "Enabled" ∧ Status i ≠ "Not Authorized") infos)
    = length keys.
Proof.
  simpl. rewrite enrichAll_enrichList. simpl.
  rewrite collect_enabledKeys, collect_notAuthorizedKeys. simpl.
  rewrite status_partition.
  auto using enrichList_length, enrichList_KeyID.
Qed.

(** *** Discovery of the tag columns *)

Lemma addTagKeys_dom (tagKeys : list string) (m : gmap string bool) :
  dom (addTagKeys tagKeys m) = dom m ∪ list_to_set tagKeys.
Proof.
  unfold addTagKeys. revert m.
  induction tagKeys as [|k rest IH]; intros m; simpl.
  { by rewrite (right_id_L ∅ (∪)). }
  rewrite IH, dom_insert_L.
  by rewrite (comm_L (∪) {[k]} (dom m)), <- (assoc_L (∪)).
Qed.

Lemma elem_of_rangeKeys {V : Type} (m : gmap string V) (k : string) :
  rangeKeys_valid rangeKeys → k ∈ rangeKeys V m ↔ k ∈ dom m.
Proof.
  intros Hv. rewrite (Hv V m), elem_of_dom, list_elem_of_fmap. split.
  - intros [[k' v] [-> Hin]]. apply elem_of_map_to_list in Hin. by exists v.
  - intros [v Hv']. exists (k, v). split; [done|]. by apply elem_of_map_to_list.
Qed.

Lemma rangeKeys_elements {V : Type} (m : gmap string V) :
  rangeKeys_valid rangeKeys → rangeKeys V m ≡ₚ elements (dom m).
Proof.
  intros Hv. apply NoDup_Permutation.
  - rewrite (Hv V m). apply NoDup_fst_map_to_list.
  - apply NoDup_elements.
  - intros k. by rewrite elem_of_elements, elem_of_rangeKeys.
Qed.

Lemma collect_allTagKeys_dom (infos : list KeyInfo) (acc : Acc) :
  rangeKeys_valid rangeKeys →
  dom (allTagKeys (foldl (collect rangeKeys) acc infos))
  = dom (allTagKeys acc) ∪ activeTagKeys infos.
Proof.
  intros Hv. revert acc. induction infos as [|i rest IH]; intros acc; simpl.
  { unfold activeTagKeys. simpl. by rewrite (right_id_L ∅ (∪)). }
  rewrite IH. unfold collect, activeTagKeys.
  destruct (String.eqb_spec (Status i) "Not Authorized") as [Hn|Hn].
  { rewrite filter_cons_False by (rewrite Hn; discriminate). reflexivity. }
  destruct (String.eqb_spec (Status i) "Enabled") as [He|He].
  - rewrite filter_cons_True by done. simpl. rewrite addTagKeys_dom.
    assert (list_to_set (rangeKeys string (Tags i)) = dom (Tags i)) as ->.
    { apply set_eq. intros k. by rewrite elem_of_list_to_set, elem_of_rangeKeys. }
    by rewrite (assoc_L (∪)).
  - by rewrite filter_cons_False.
Qed.

Lemma sort_Strings_sorted (l : list string) : Sorted String.le (sort_Strings l).
Proof. apply (Sorted_merge_sort String.le). Qed.

Lemma sort_Strings_perm (l1 l2 : list string) :
  l1 ≡ₚ l2 → sort_Strings l1 = sort_Strings l2.
Proof.
  intros Hp. apply (Sorted_unique String.le); try apply sort_Strings_sorted.
  unfold sort_Strings. by rewrite !merge_sort_Permutation.
Qed.

Lemma sortedTagKeys_canonical (m : gmap string bool) :
  rangeKeys_valid rangeKeys →
  sortedTagKeys rangeKeys m = sort_Strings (elements (dom m)).
Proof. intros Hv. apply sort_Strings_perm. by apply rangeKeys_elements. Qed.

Lemma elem_of_activeTagKeys (records : list KeyInfo) (k : string) :
  k ∈ activeTagKeys records
  ↔ ∃ r, r ∈ records ∧ Status r = "Enabled" ∧ is_Some (Tags r !! k).
Proof.
  unfold activeTagKeys. rewrite elem_of_union_list. split.
  - intros (X & HX & Hk). apply list_elem_of_fmap in HX as (r & -> & Hr).
    apply list_elem_of_filter in Hr as [He Hr].
    exists r. by rewrite <- elem_of_dom.
  - intros (r & Hr & He & Hk). exists (dom (Tags r)). split.
    + apply list_elem_of_fmap. exists r. split; [done|].
      by apply list_elem_of_filter.
    + by apply elem_of_dom.
Qed.

End Collect.

(** C5.  Whatever order the two [range] loops enumerate the maps in, the
    columns [main] discovers from the collected records are the sorted
    enumeration of the union of the tag keys of the records whose status
    is "Enabled": increasing in Go's string order, without repetition,
    holding a key exactly when such a record carries it, and therefore
    the same under any other enumeration order.  Enabled records tagged
    Env=prod and Team=x give the columns Env, Team, in that order. *)
Theorem discovered_columns_sorted_union
    (rangeKeys : ∀ V : Type, gmap string V → list string) (records : list KeyInfo) :
  rangeKeys_valid rangeKeys →
  let columns :=
    sortedTagKeys rangeKeys (allTagKeys (foldl (collect rangeKeys) emptyAcc records)) in
  columns = sort_Strings (elements (activeTagKeys records))
  ∧ Sorted String.le columns
  ∧ NoDup columns
  ∧ (∀ k, k ∈ columns ↔
          ∃ r, r ∈ records ∧ Status r = "Enabled" ∧ is_Some (Tags r !! k))
  ∧ (∀ rangeKeys' : ∀ V : Type, gmap string V → list string,
       rangeKeys_valid rangeKeys' →
       sortedTagKeys rangeKeys'
         (allTagKeys (foldl (collect rangeKeys') emptyAcc records)) = columns)
  ∧ (∀ r1 r2,
       records = [r1; r2] →
       Status r1 = "Enabled" → Status r2 = "Enabled" →
       Tags r1 = {["Env" := "prod"]} → Tags r2 = {["Team" := "x"]} →
       columns = ["Env"; "Team"]).
Proof.
  intros Hv columns.
  assert (∀ rk : ∀ V : Type, gmap string V → list string,
            rangeKeys_valid rk →
            sortedTagKeys rk (allTagKeys (foldl (collect rk) emptyAcc records))
            = sort_Strings (elements (activeTagKeys records))) as Hcanon.
  { intros rk Hrk. rewrite sortedTagKeys_canonical by done.
    rewrite collect_allTagKeys_dom by done. simpl.
    by rewrite dom_empty_L, (left_id_L ∅ (∪)). }
  assert (columns = sort_Strings (elements (activeTagKeys records))) as Hc
    by (by apply Hcanon).
  split; [exact Hc|].
  split; [rewrite Hc; apply sort_Strings_sorted|].
  split.
  { rewrite Hc. unfold sort_Strings. rewrite merge_sort_Permutation.
    apply NoDup_elements. }
  split.
  { intros k. rewrite Hc. unfold sort_Strings.
    by rewrite merge_sort_Permutation, elem_of_elements, elem_of_activeTagKeys. }
  split.
  { intros rk Hrk. by rewrite Hc, Hcanon. }
  intros r1 r2 -> H1 H2 Ht1 Ht2. rewrite Hc. unfold activeTagKeys.
  rewrite filter_cons_True by done. rewrite filter_cons_True by done.
  simpl. rewrite Ht1, Ht2, !dom_singleton_L. by vm_compute.
Qed.

Section Tables.



Variable Format : Time → string.
Variable RuneCountInString : string → nat.

Lemma widen_max (i n w : nat) (widths : list nat) :
  widths !! i = Some w → widen i n widths = Some (<[i := w `max` n]> widths).
Proof.
  intros Hw. unfold widen. rewrite Hw. f_equal.
  destruct (Nat.ltb_spec w n).
  - by rewrite Nat.max_r by lia.
  - rewrite Nat.max_l by lia. by rewrite list_insert_id.
Qed.

Lemma widenTags_zip (key : KeyInfo) (tagKeys : list string) (i : nat)
    (pre tagWidths : list nat) :
  length pre = i + 4 → length tagWidths = length tagKeys →
  widenTags i tagKeys key (pre ++ tagWidths)
  = Some (pre ++ zip_with Nat.max tagWidths
                   (String.length <$> (tagValueOf key <$> tagKeys))).
Proof.
  revert i pre tagWidths.
  induction tagKeys as [|tagKey rest IH]; intros i pre tagWidths Hpre Hlen.
  { destruct tagWidths; [|discriminate]. reflexivity. }
  destruct tagWidths as [|w tagWidths]; [discriminate|].
  simpl in Hlen. injection Hlen as Hlen. simpl.
  rewrite (widen_max _ _ w).
  2:{ rewrite <- Hpre. apply list_lookup_middle. reflexivity. }
  rewrite <- Hpre, insert_app_r_alt, Nat.sub_diag by lia. simpl.
  rewrite (cons_middle _ pre), app_assoc.
  rewrite (IH (S i) (pre ++ [w `max` String.length (tagValueOf key tagKey)]) tagWidths).
  - by rewrite <- app_assoc.
  - rewrite length_app. simpl. lia.
  - exact Hlen.
Qed.

Lemma measuredRow_length (tagKeys : list string) (key : KeyInfo) :
  length (measuredRow Format tagKeys key) = 4 + length tagKeys.
Proof. unfold measuredRow. rewrite length_app, length_fmap. reflexivity. Qed.

Lemma enabledRow_length (tagKeys : list string) (key : KeyInfo) :
  length (enabledRow Format tagKeys key) = 4 + length tagKeys.
Proof. unfold enabledRow. rewrite length_app, length_fmap. reflexivity. Qed.

Lemma widenKey_zip (tagKeys : list string) (key : KeyInfo) (widths : list nat) :
  length widths = 4 + length tagKeys →
  widenKey Format tagKeys key widths
  = Some (zip_with Nat.max widths (String.length <$> measuredRow Format tagKeys key)).
Proof.
  intros Hlen.
  destruct widths as [|w0 [|w1 [|w2 [|w3 tagWidths]]]]; try discriminate.
  simpl in Hlen. unfold widenKey, mbind, option_bind.
  rewrite (widen_max 0 _ w0) by reflexivity. lazy beta iota.
  rewrite (widen_max 1 _ w1) by reflexivity. lazy beta iota.
  rewrite (widen_max 2 _ w2) by reflexivity. lazy beta iota.
  rewrite (widen_max 3 _ w3) by reflexivity. lazy beta iota.
  simpl.
  apply (widenTags_zip key tagKeys 0 [_; _; _; _] tagWidths); simpl; lia.
Qed.

Lemma widenKeys_fold (tagKeys : list string) (keys : list KeyInfo) (widths : list nat) :
  length widths = 4 + length tagKeys →
  widenKeys Format tagKeys keys widths
  = Some (foldl (λ ws key,
                   zip_with Nat.max ws (String.length <$> measuredRow Format tagKeys key))
                widths keys).
Proof.
  revert widths. induction keys as [|key rest IH]; intros widths Hlen.
  { reflexivity. }
  cbn [widenKeys foldl]. rewrite widenKey_zip by done. apply IH.
  rewrite length_zip_with, length_fmap, measuredRow_length. lia.
Qed.

Lemma column_cons (i : nat) (row : list string) (rows : list (list string))
    (cell : string) :
  row !! i = Some cell → column i (row :: rows) = cell :: column i rows.
Proof. intros H. unfold column. simpl. by rewrite H. Qed.

Lemma widths_fold_lookup (tagKeys : list string) (keys : list KeyInfo)
    (widths : list nat) (i w : nat) :
  widths !! i = Some w → i < 4 + length tagKeys →
  foldl (λ ws key,
           zip_with Nat.max ws (String.length <$> measuredRow Format tagKeys key))
        widths keys !! i
  = Some (w `max` max_list (String.length
                              <$> column i (measuredRow Format tagKeys <$> keys))).
Proof.
  intros Hw Hi. revert widths w Hw.
  induction keys as [|key rest IH]; intros widths w Hw.
  { simpl. by rewrite Nat.max_0_r. }
  destruct (lookup_lt_is_Some_2 (measuredRow Format tagKeys key) i) as [m Hm].
  { by rewrite measuredRow_length. }
  cbn [foldl]. rewrite fmap_cons, (column_cons _ _ _ m Hm).
  rewrite (IH _ (w `max` String.length m)).
  - rewrite fmap_cons. cbn [max_list max_list_with].
    change (id (String.length m)) with (String.length m). by rewrite Nat.max_assoc.
  - rewrite lookup_zip_with, Hw, list_lookup_fmap, Hm. reflexivity.
Qed.

Lemma cell_lengths (tagKeys : list string) (key : KeyInfo) (i : nat) (m c : string) :
  measuredRow Format tagKeys key !! i = Some m →
  enabledRow Format tagKeys key !! i = Some c →
  (String.length m ≤ String.length c ≤ 1 `max` String.length m)%nat.
Proof.
  unfold measuredRow, enabledRow.
  destruct i as [|[|[|[|j]]]]; simpl; try (intros [= <-] [= <-]; lia).
  rewrite !list_lookup_fmap.
  destruct (tagKeys !! j) as [tagKey|]; simpl; [|discriminate].
  intros [= <-] [= <-]. unfold tagCell.
  destruct (String.eqb_spec (tagValueOf key tagKey) "") as [->|Hne]; simpl; lia.
Qed.

Lemma column_max_bounds (tagKeys : list string) (keys : list KeyInfo) (i : nat) :
  i < 4 + length tagKeys →
  (max_list (String.length <$> column i (measuredRow Format tagKeys <$> keys))
   ≤ max_list (String.length <$> column i (enabledRow Format tagKeys <$> keys))
   ≤ 1 `max` max_list (String.length <$> column i (measuredRow Format tagKeys <$> keys)))%nat.
Proof.
  intros Hi. induction keys as [|key rest IH]; [simpl; lia|].
  destruct (lookup_lt_is_Some_2 (measuredRow Format tagKeys key) i) as [m Hm].
  { by rewrite measuredRow_length. }
  destruct (lookup_lt_is_Some_2 (enabledRow Format tagKeys key) i) as [c Hc].
  { by rewrite enabledRow_length. }
  rewrite !fmap_cons, (column_cons _ _ _ m Hm), (column_cons _ _ _ c Hc), !fmap_cons.
  cbn [max_list max_list_with].
  change (id (String.length m)) with (String.length m).
  change (id (String.length c)) with (String.length c).
  pose proof (cell_lengths tagKeys key i m c Hm Hc). lia.
Qed.

(** *** Rendering *)


Lemma printCells_padded (values : list string) (widths : list nat) (i : nat) :
  (i + length values ≤ length widths)%nat →
  printCells RuneCountInString i values widths
  = Some (paddedCells RuneCountInString (drop i widths) values).
Proof.
  revert i. induction values as [|v rest IH]; intros i Hlen.
  { unfold paddedCells. by rewrite zip_with_nil_r. }
  simpl in Hlen.
  destruct (lookup_lt_is_Some_2 widths i) as [w Hw]; [lia|].
  cbn [printCells]. rewrite Hw, IH by lia.
  by rewrite (drop_S _ _ _ Hw).
Qed.

Lemma printRow_padded (values : list string) (widths : list nat) :
  (length values ≤ length widths)%nat →
  printRow RuneCountInString values widths
  = Some (paddedRow RuneCountInString widths values).
Proof. intros Hlen. unfold printRow. by rewrite printCells_padded. Qed.

Lemma printRows_padded (rows : list (list string)) (widths : list nat) :
  Forall (λ row, (length row ≤ length widths)%nat) rows →
  printRows RuneCountInString rows widths
  = Some (paddedRows RuneCountInString widths rows).
Proof.
  induction 1 as [|row rest Hrow _ IH]; [reflexivity|].
  cbn [printRows]. rewrite printRow_padded, IH by done. reflexivity.
Qed.

Lemma enabledWidths_fold (keys : list KeyInfo) (tagKeys : list string) :
  enabledWidths Format keys tagKeys
  = Some (foldl (λ ws key,
                   zip_with Nat.max ws (String.length <$> measuredRow Format tagKeys key))
                (String.length <$> enabledHeaders tagKeys) keys).
Proof.
  unfold enabledWidths. apply widenKeys_fold.
  unfold enabledHeaders. rewrite length_fmap, length_app. reflexivity.
Qed.

Lemma widths_fold_length (tagKeys : list string) (keys : list KeyInfo)
    (widths : list nat) :
  length widths = 4 + length tagKeys →
  length (foldl (λ ws key,
                   zip_with Nat.max ws (String.length <$> measuredRow Format tagKeys key))
                widths keys) = 4 + length tagKeys.
Proof.
  revert widths. induction keys as [|key rest IH]; intros widths Hlen; [done|].
  cbn [foldl]. apply IH.
  rewrite length_zip_with, length_fmap, measuredRow_length. lia.
Qed.

Lemma printEnabledKeysTable_padded (keys : list KeyInfo) (tagKeys : list string)
    (widths : list nat) :
  enabledWidths Format keys tagKeys = Some widths →
  length widths = 4 + length tagKeys →
  printEnabledKeysTable Format RuneCountInString keys tagKeys
  = Some (paddedRow RuneCountInString widths (enabledHeaders tagKeys)
          +:+ printSeparator widths
          +:+ paddedRows RuneCountInString widths (enabledRow Format tagKeys <$> keys)).
Proof.
  intros Hw Hlen. unfold printEnabledKeysTable. rewrite Hw. cbn [mbind option_bind].
  rewrite printRow_padded.
  2:{ unfold enabledHeaders. rewrite length_app, Hlen. simpl. lia. }
  cbn [mbind option_bind].
  rewrite printRows_padded; [reflexivity|].
  apply Forall_fmap, Forall_forall. intros key _.
  unfold compose. rewrite enabledRow_length, Hlen. lia.
Qed.

Lemma widenNotAuthorized_defined (keys : list KeyInfo) (widths : list nat) :
  length widths = 2 →
  ∃ widths', widenNotAuthorized keys widths = Some widths' ∧ length widths' = 2.
Proof.
  revert widths. induction keys as [|key rest IH]; intros widths Hlen.
  { by exists widths. }
  destruct widths as [|w0 [|w1 [|]]]; try discriminate.
  cbn [widenNotAuthorized]. rewrite (widen_max 0 _ w0) by reflexivity.
  cbn [mbind option_bind]. rewrite (widen_max 1 _ w1) by reflexivity.
  cbn [mbind option_bind]. apply IH. reflexivity.
Qed.

Lemma printNotAuthorizedKeysTable_defined (keys : list KeyInfo) :
  is_Some (printNotAuthorizedKeysTable RuneCountInString keys).
Proof.
  unfold printNotAuthorizedKeysTable, notAuthorizedWidths.
  destruct (widenNotAuthorized_defined keys (String.length <$> notAuthorizedHeaders))
    as (widths & -> & Hlen); [reflexivity|].
  cbn [mbind option_bind].
  rewrite printRow_padded by (rewrite Hlen; simpl; lia).
  cbn [mbind option_bind].
  rewrite printRows_padded; [by eexists|].
  apply Forall_fmap, Forall_forall. intros key _.
  unfold compose. rewrite Hlen. simpl. lia.
Qed.

(** [main] never indexes a slice out of range: the report is always
    printed. *)
Lemma report_defined (rangeKeys : ∀ V : Type, gmap string V → list string)
    (keys : list KeyListEntry) (acc : Acc) :
  is_Some (report rangeKeys Format RuneCountInString keys acc).
Proof.
  unfold report.
  assert (∀ ks tagKeys,
            is_Some (printEnabledKeysTable Format RuneCountInString ks tagKeys))
    as Henabled.
  { intros ks tagKeys.
    erewrite printEnabledKeysTable_padded; [by eexists|apply enabledWidths_fold|].
    apply widths_fold_length.
    unfold enabledHeaders. rewrite length_fmap, length_app. reflexivity. }
  destruct (0 <? length (enabledKeys acc))%nat.
  - destruct (Henabled (enabledKeys acc)
                (sortedTagKeys rangeKeys (allTagKeys acc))) as [t1 ->].
    cbn [mbind option_bind].
    destruct (0 <? length (notAuthorizedKeys acc))%nat.
    + destruct (printNotAuthorizedKeysTable_defined (notAuthorizedKeys acc)) as [t2 ->].
      by eexists.
    + by eexists.
  - cbn [mbind option_bind].
    destruct (0 <? length (notAuthorizedKeys acc))%nat.
    + destruct (printNotAuthorizedKeysTable_defined (notAuthorizedKeys acc)) as [t2 ->].
      by eexists.
    + by eexists.
Qed.

Lemma main_never_panics (rangeKeys : ∀ V : Type, gmap string V → list string)
    (cfg : result ()) (fuel : nat) (st : State World) :
  (main client rangeKeys Format RuneCountInString cfg fuel st).1 ≠ Panic.
Proof.
  unfold main. destruct cfg as [[]|err]; [|discriminate].
  destruct (listAllKeys client fuel st) as [[[keys|err]|] st1]; try discriminate.
  destruct (enrichAll client rangeKeys keys emptyAcc st1) as [acc st2].
  destruct (report_defined rangeKeys keys acc) as [out ->]. discriminate.
Qed.


End Tables.

End KMSFacts.

(** ** The Secrets Manager exporter *)

Section SecretsFacts.

Context {World Disk R : Type} (client : Secrets.Client World).
Context (recordOf : Secrets.types.SecretListEntry → R).
Import Secrets.

Lemma secrets_newCalls_app (st st' : State World Disk) (new : list Call) :
  calls st' = calls st ++ new → newCalls st st' = new.
Proof. unfold newCalls. intros ->. by rewrite drop_app_length. Qed.

Lemma callListSecrets_effect (token : option string) (st : State World Disk) :
  calls (callListSecrets client token st).2
  = calls st ++ [CallListSecrets token (callListSecrets client token st).1]
  ∧ disk (callListSecrets client token st).2 = disk st
  ∧ stderr (callListSecrets client token st).2 = stderr st.
Proof. unfold callListSecrets. destruct (ListSecrets _ _ _); repeat split; reflexivity. Qed.

(** What a run of the listing loop does, read off the calls it issued. *)
Lemma listSecrets_loop_outcome (fuel : nat) (paginator : Paginator)
    (secrets : list R) (st : State World Disk) :
  let r := (listSecrets_loop client recordOf fuel paginator secrets st).1 in
  let st' := (listSecrets_loop client recordOf fuel paginator secrets st).2 in
  ∃ new : list Call,
    calls st' = calls st ++ new
    ∧ disk st' = disk st
    ∧ filter (λ c, isFileCall c = true) new = []
    ∧ match listingFailure new with
      | Some err =>
          if isNotAuthorizedError err then
            r = Some (Ok (secrets ++ (recordOf <$> listedSecrets new)))
            ∧ stderr st' = stderr st +:+ notAuthorizedWarning
          else
            r = Some (Err (Errorf_w "failed to list secrets: " err))
            ∧ stderr st' = stderr st
      | None =>
          stderr st' = stderr st
          ∧ (r = None ∨ r = Some (Ok (secrets ++ (recordOf <$> listedSecrets new))))
      end.
Proof.
  simpl. revert paginator secrets st.
  induction fuel as [|fuel IH]; intros paginator secrets st.
  { exists []. simpl. rewrite !app_nil_r. repeat split; auto. }
  simpl. destruct (HasMorePages paginator) eqn:Hmore.
  2:{ exists []. simpl. rewrite !app_nil_r. repeat split; auto. }
  unfold NextPage. rewrite Hmore. simpl.
  pose proof (callListSecrets_effect (nextToken paginator) st) as (Hc & Hd & He).
  destruct (callListSecrets client (nextToken paginator) st) as [[page|err] st1];
    simpl in Hc, Hd, He.
  - destruct (IH (mkPaginator false (types.NextToken page))
                (secrets ++ (recordOf <$> types.SecretList page)) st1)
      as (new & Hc1 & Hd1 & Hf1 & Hout).
    exists (CallListSecrets (nextToken paginator) (Ok page) :: new).
    split; [by rewrite Hc1, Hc, <- app_assoc|].
    split; [congruence|].
    split; [rewrite filter_cons_False by (simpl; discriminate); exact Hf1|].
    change (listingFailure (CallListSecrets (nextToken paginator) (Ok page) :: new))
      with (listingFailure new).
    change (listedSecrets (CallListSecrets (nextToken paginator) (Ok page) :: new))
      with (types.SecretList page ++ listedSecrets new).
    rewrite fmap_app, app_assoc, <- He.
    exact Hout.
  - exists [CallListSecrets (nextToken paginator) (Err err)].
    change (listingFailure [CallListSecrets (nextToken paginator) (Err err)])
      with (Some err).
    split; [destruct (isNotAuthorizedError err); exact Hc|].
    split; [destruct (isNotAuthorizedError err); exact Hd|].
    split; [reflexivity|].
    destruct (isNotAuthorizedError err); simpl; rewrite ?app_nil_r.
    + split; [reflexivity|]. by rewrite He.
    + split; [reflexivity|]. exact He.
Qed.

(** X19.  Whenever the listing succeeds, it returns exactly one record
    per secret of the pages it fetched, in listing order: none is dropped,
    repeated or reordered, also when the listing was cut short by an
    authorization denial. *)
Lemma listSecrets_one_record_per_secret (fuel : nat) (st : State World Disk)
    (secrets : list R) :
  (listSecrets client recordOf fuel st).1 = Some (Ok secrets) →
  secrets
  = recordOf <$> listedSecrets (newCalls st (listSecrets client recordOf fuel st).2).
Proof.
  unfold listSecrets.
  destruct (listSecrets_loop_outcome fuel NewListSecretsPaginator [] st)
    as (new & Hc & _ & _ & Hout).
  rewrite (secrets_newCalls_app _ _ _ Hc). intros Hr. rewrite Hr in Hout.
  destruct (listingFailure new) as [err|].
  - destruct (isNotAuthorizedError err); destruct Hout as [Heq _]; by simplify_eq.
  - destruct Hout as [_ [Heq|Heq]]; by simplify_eq.
Qed.

(** The page budget is used up only when [fuel] pages were fetched:
    against a service that ends its listing, a larger budget makes
    [listSecrets] return. *)
Lemma listSecrets_loop_out_of_fuel (fuel : nat) (paginator : Paginator)
    (secrets : list R) (st : State World Disk) :
  (listSecrets_loop client recordOf fuel paginator secrets st).1 = None →
  length (filter (λ c, fetchedPage c = true)
            (newCalls st (listSecrets_loop client recordOf fuel paginator secrets st).2))
  = fuel.
Proof.
  enough (∃ new,
            calls (listSecrets_loop client recordOf fuel paginator secrets st).2
            = calls st ++ new
            ∧ ((listSecrets_loop client recordOf fuel paginator secrets st).1 = None →
               length (filter (λ c, fetchedPage c = true) new) = fuel))
    as (new & Hc & Hn).
  { by rewrite (secrets_newCalls_app _ _ _ Hc). }
  revert paginator secrets st.
  induction fuel as [|fuel IH]; intros paginator secrets st.
  { exists []. simpl. by rewrite app_nil_r. }
  simpl. destruct (HasMorePages paginator) eqn:Hmore.
  2:{ exists []. simpl. rewrite app_nil_r. split; [done|discriminate]. }
  unfold NextPage. rewrite Hmore. simpl.
  pose proof (callListSecrets_effect (nextToken paginator) st) as (Hc & _ & _).
  destruct (callListSecrets client (nextToken paginator) st) as [[page|err] st1];
    simpl in Hc.
  - destruct (IH (mkPaginator false (types.NextToken page))
                (secrets ++ (recordOf <$> types.SecretList page)) st1)
      as (new & Hc1 & Hn1).
    exists (CallListSecrets (nextToken paginator) (Ok page) :: new).
    split; [by rewrite Hc1, Hc, <- app_assoc|].
    intros Hnone. rewrite filter_cons_True by reflexivity. simpl. by rewrite Hn1.
  - exists [CallListSecrets (nextToken paginator) (Err err)].
    split; [by destruct (isNotAuthorizedError err)|].
    by destruct (isNotAuthorizedError err).
Qed.

End SecretsFacts.

(** *** The exported record *)

(** C3, as the code has it.  In both editions the exported description is
    null exactly when the listed secret has no description or has the
    empty string as its description, so these two inputs are exported
    alike; a description that is not empty is exported as it is. *)
Theorem description_null_or_nonempty (secret : Secrets.types.SecretListEntry) :
  let exported1 := Secrets.ParquetGo.Description (Secrets.ParquetGo.recordOf secret) in
  let exported2 := Secrets.Xitongsys.Description (Secrets.Xitongsys.recordOf secret) in
  exported1 = exported2
  ∧ (exported1 = None ↔
       Secrets.types.Description secret = None
       ∨ Secrets.types.Description secret = Some "")
  ∧ (∀ d, exported1 = Some d ↔ Secrets.types.Description secret = Some d ∧ d ≠ "").
Proof.
  simpl. destruct (Secrets.types.Description secret) as [d|].
  - destruct (String.eqb_spec d "") as [->|Hd]; simpl.
    + split; [reflexivity|]. split; [intuition|].
      intros d. split; [discriminate|]. intros [[= <-] H]. congruence.
    + split; [reflexivity|]. split.
      * split; [discriminate|]. intros [H|H]; congruence.
      * intros d'. split; [intros [= <-]; done|]. intros [[= <-] _]. done.
  - split; [reflexivity|]. split; [intuition|].
    intros d. split; [discriminate|]. intros [H _]. discriminate.
Qed.




(** *** The empty inventory *)

(** C10.  When the listing returns no record, [main] prints "No secrets
    found" to the error stream and ends with status 0; [writeParquet] is
    not run: the disk is as before the run and the run issued no file
    operation.  This holds whatever [writeParquet] is, so for both
    editions. *)
Theorem empty_inventory_skips_export {World Disk R : Type}
    (client : Secrets.Client World)
    (recordOf : Secrets.types.SecretListEntry → R)
    (writeParquet : string → list R → Secrets.State World Disk
                    → option error * Secrets.State World Disk)
    (output : string) (fuel : nat) (st : Secrets.State World Disk) :
  let listing := Secrets.listSecrets client recordOf fuel st in
  let run := Secrets.main client recordOf writeParquet output (Ok ()) fuel st in
  listing.1 = Some (Ok []) →
  run.1 = Exit 0
  ∧ Secrets.stderr run.2 = Secrets.stderr listing.2 +:+ "No secrets found" +:+ nl
  ∧ Secrets.disk run.2 = Secrets.disk st
  ∧ filter (λ c, Secrets.isFileCall c = true) (Secrets.newCalls st run.2) = [].
Proof.
  simpl. unfold Secrets.main, Secrets.listSecrets.
  destruct (listSecrets_loop_outcome client recordOf fuel
              Secrets.NewListSecretsPaginator [] st) as (new & Hc & Hd & Hf & _).
  destruct (Secrets.listSecrets_loop client recordOf fuel
              Secrets.NewListSecretsPaginator [] st) as [r st1].
  simpl in *. intros ->. simpl.
  repeat split; try done.
  by rewrite (secrets_newCalls_app st _ new).
Qed.

(** ** Failures of the listing *)


(** ** Runs of the sample services *)

(** C1 fails as stated: the one listed key is disabled, its record is in
    neither table, and the report counts one key and shows none. *)
Lemma disabled_key_not_reported :
  let run := KMS.main Sample.oneDisabledKey Sample.inOrder Sample.fixedFormat
               Sample.asciiRunes (Ok ()) 3 Sample.st0 in
  let acc := (KMS.enrichAll Sample.oneDisabledKey Sample.inOrder [Sample.key1]
                KMS.emptyAcc Sample.st0).1 in
  (KMS.listAllKeys Sample.oneDisabledKey 3 Sample.st0).1 = Some (Ok [Sample.key1])
  ∧ length (KMS.enabledKeys acc) + length (KMS.notAuthorizedKeys acc)
    ≠ length [Sample.key1]
  ∧ run.1 = Exit 0
  ∧ KMS.stdout run.2
    = nl +:+ "Total Customer Managed Keys: 1" +:+ nl
      +:+ "  Enabled: 0" +:+ nl +:+ "  Not Authorized: 0" +:+ nl.
Proof. vm_compute. repeat split; try reflexivity. discriminate. Qed.

(** C3 fails as stated: a secret without a description and a secret whose
    description is the empty string are exported as the same record, with
    a null description, in both editions. *)
Lemma empty_description_exported_as_null :
  Secrets.ParquetGo.recordOf Sample.emptyDescriptionSecret
  = Secrets.ParquetGo.recordOf Sample.undescribedSecret
  ∧ Secrets.ParquetGo.Description
      (Secrets.ParquetGo.recordOf Sample.emptyDescriptionSecret) = None
  ∧ Secrets.Xitongsys.recordOf Sample.emptyDescriptionSecret
    = Secrets.Xitongsys.recordOf Sample.undescribedSecret
  ∧ Secrets.Xitongsys.Description
      (Secrets.Xitongsys.recordOf Sample.emptyDescriptionSecret) = None
  ∧ Secrets.types.Description Sample.emptyDescriptionSecret
    ≠ Secrets.types.Description Sample.undescribedSecret.
Proof. repeat split; try reflexivity. discriminate. Qed.




(** ** Instances of the theorems on the sample services *)

Lemma inOrder_valid : KMS.rangeKeys_valid Sample.inOrder.
Proof. intros V m. reflexivity. Qed.

Lemma reversed_valid : KMS.rangeKeys_valid Sample.reversed.
Proof. intros V m. unfold Sample.reversed. apply reverse_Permutation. Qed.

(** A denied detail call gives the status "Not Authorized" and no tags. *)
Lemma getKeyInfo_detail_failure_denied :
  let info := (KMS.getKeyInfo Sample.deniedDetails "k1" Sample.st0).1 in
  let st' := (KMS.getKeyInfo Sample.deniedDetails "k1" Sample.st0).2 in
  KMS.Tags info = ∅
  ∧ KMS.Status info = "Not Authorized"
  ∧ KMS.calls st' = [KMS.CallDescribeKey "k1" (Err Sample.accessDeniedError)].
Proof.
  destruct (getKeyInfo_detail_failure Sample.deniedDetails "k1" Sample.st0
              Sample.accessDeniedError 0 eq_refl)
    as (Htags & _ & Hcode & _ & _ & _ & Hcalls & _).
  split; [exact Htags|]. split; [|exact Hcalls].
  exact (Hcode "AccessDeniedException" eq_refl eq_refl eq_refl).
Defined.

(** A disabled key gets no tag call; an enabled key whose tag call fails
    stays "Enabled" without tags. *)
Lemma getKeyInfo_tag_policy_samples :
  (KMS.Tags (KMS.getKeyInfo Sample.oneDisabledKey "k1" Sample.st0).1 = ∅
   ∧ KMS.calls (KMS.getKeyInfo Sample.oneDisabledKey "k1" Sample.st0).2
     = [KMS.CallDescribeKey "k1" (Ok Sample.disabledMeta)])
  ∧ (KMS.Tags (KMS.getKeyInfo Sample.deniedTags "k1" Sample.st0).1 = ∅
     ∧ KMS.Status (KMS.getKeyInfo Sample.deniedTags "k1" Sample.st0).1 = "Enabled").
Proof.
  split.
  - destruct (getKeyInfo_tag_policy Sample.oneDisabledKey "k1" Sample.st0
                Sample.disabledMeta 0 eq_refl) as (_ & Hoff & _).
    destruct Hoff as (Ht & Hc & _); [discriminate|]. split; assumption.
  - destruct (getKeyInfo_tag_policy Sample.deniedTags "k1" Sample.st0
                Sample.enabledMeta 0 eq_refl) as (_ & _ & Hon).
    destruct (Hon eq_refl (Err Sample.accessDeniedError) 0 eq_refl) as (_ & Herr & _).
    exact (Herr Sample.accessDeniedError eq_refl).
Defined.

(** The three inputs of the description in the first edition. *)
Lemma description_null_or_nonempty_samples :
  Secrets.ParquetGo.Description (Secrets.ParquetGo.recordOf Sample.undescribedSecret)
  = None
  ∧ Secrets.ParquetGo.Description
      (Secrets.ParquetGo.recordOf Sample.emptyDescriptionSecret) = None
  ∧ Secrets.ParquetGo.Description (Secrets.ParquetGo.recordOf Sample.accessedSecret)
    = Some "API key".
Proof.
  split; [|split].
  - destruct (description_null_or_nonempty Sample.undescribedSecret) as (_ & Hnull & _).
    apply Hnull. left. reflexivity.
  - destruct (description_null_or_nonempty Sample.emptyDescriptionSecret)
      as (_ & Hnull & _).
    apply Hnull. right. reflexivity.
  - destruct (description_null_or_nonempty Sample.accessedSecret) as (_ & _ & Hsome).
    apply Hsome. split; [reflexivity|discriminate].
Defined.


(** The columns of the records tagged Env=prod and Team=x, under two
    enumeration orders. *)
Lemma discovered_columns_env_team :
  KMS.sortedTagKeys Sample.inOrder
    (KMS.allTagKeys (foldl (KMS.collect Sample.inOrder) KMS.emptyAcc
                       [Sample.envRecord; Sample.teamRecord]))
  = ["Env"; "Team"]
  ∧ KMS.sortedTagKeys Sample.reversed
      (KMS.allTagKeys (foldl (KMS.collect Sample.reversed) KMS.emptyAcc
                         [Sample.envRecord; Sample.teamRecord]))
    = ["Env"; "Team"].
Proof.
  destruct (discovered_columns_sorted_union Sample.inOrder
              [Sample.envRecord; Sample.teamRecord] inOrder_valid)
    as (_ & _ & _ & _ & Hany & Hex).
  pose proof (Hex Sample.envRecord Sample.teamRecord eq_refl eq_refl eq_refl
                eq_refl eq_refl) as Hcols.
  split; [exact Hcols|].
  rewrite (Hany Sample.reversed reversed_valid). exact Hcols.
Defined.



(** An empty page: status 0, the notice, an empty disk, no file call. *)
Lemma empty_inventory_skips_export_sample :
  let st := Sample.sst0 Secrets.ParquetGo.SecretRecord in
  let listing := Secrets.ParquetGo.listSecrets Sample.noSecrets 3 st in
  let run :=
    Secrets.ParquetGo.main Sample.noSecrets (Sample.plainDisk _)
      "secrets.parquet" (Ok ()) 3 st in
  run.1 = Exit 0
  ∧ Secrets.stderr run.2 = Secrets.stderr listing.2 +:+ "No secrets found" +:+ nl
  ∧ Secrets.disk run.2 = ∅
  ∧ filter (λ c, Secrets.isFileCall c = true) (Secrets.newCalls st run.2) = [].
Proof.
  apply (empty_inventory_skips_export Sample.noSecrets Secrets.ParquetGo.recordOf
           (Secrets.ParquetGo.writeParquet (Sample.plainDisk _))
           "secrets.parquet" 3 (Sample.sst0 _)).
  reflexivity.
Defined.


(** * Further properties of the two programs *)

(** ** The key report: enrichment and listing *)

Section KMSEnrichment.

Context {World : Type} (client : KMS.Client World).
Import KMS.

Lemma addTags_lookup (tags : list Tag) (m : gmap string string) (k : string) :
  addTags tags m !! k
  = match last (filter (λ tag, TagKey tag = k) tags) with
    | Some tag => Some (TagValue tag)
    | None => m !! k
    end.
Proof.
  unfold addTags. revert m. induction tags as [|tag rest IH]; intros m; [reflexivity|].
  cbn [foldl]. rewrite IH.
  destruct (decide (TagKey tag = k)) as [<-|Hne].
  - rewrite filter_cons_True by done. rewrite last_cons.
    destruct (last (filter _ rest)); [reflexivity|]. by rewrite lookup_insert_eq.
  - rewrite filter_cons_False by done.
    destruct (last (filter _ rest)); [reflexivity|]. by rewrite lookup_insert_ne.
Qed.

(** X1.  For a key whose state is "Enabled" and whose tag call succeeds,
    the record holds, under every tag key, the value of the last tag of
    the answer that has this key, and nothing under a key the answer does
    not have; its status is "Enabled", its type the key spec and its
    creation date the returned one, or the zero time when none came. *)
Theorem getKeyInfo_tags_last_wins (keyID : string) (st : State World)
    (describeOutput : KeyMetadata) (w w' : World) (tags : list Tag) :
  DescribeKey client keyID (world st) = (Ok describeOutput, w) →
  KeyState describeOutput = KeyStateEnabled →
  ListResourceTags client keyID w = (Ok tags, w') →
  let info := (getKeyInfo client keyID st).1 in
  (∀ k, Tags info !! k = TagValue <$> last (filter (λ tag, TagKey tag = k) tags))
  ∧ Status info = "Enabled"
  ∧ KeyType info = KeySpec describeOutput
  ∧ CreationDate info = default zeroTime (MetaCreationDate describeOutput)
  ∧ world (getKeyInfo client keyID st).2 = w'.
Proof.
  intros Hd He Ht. unfold getKeyInfo, callDescribeKey. rewrite Hd. simpl.
  rewrite He. simpl. unfold callListResourceTags. simpl. rewrite Ht. simpl.
  split.
  { intros k. destruct (MetaCreationDate describeOutput); simpl;
      rewrite addTags_lookup, lookup_empty;
      by destruct (last (filter _ tags)). }
  destruct (MetaCreationDate describeOutput); simpl; auto.
Qed.

(** What one call of [getKeyInfo] adds to the log and leaves alone. *)
Lemma getKeyInfo_effect (keyID : string) (st : State World) :
  let info := (getKeyInfo client keyID st).1 in
  let st' := (getKeyInfo client keyID st).2 in
  ∃ new : list Call,
    calls st' = calls st ++ new
    ∧ (describeCalls new).*1 = [keyID]
    ∧ tagCalls new = (if decide (Status info = "Enabled") then [keyID] else [])
    ∧ listingCalls new = []
    ∧ stdout st' = stdout st ∧ stderr st' = stderr st
    ∧ (Tags info ≠ ∅ →
       Status info = "Enabled"
       ∧ ∃ tags, tags ≠ [] ∧ last new = Some (CallListResourceTags keyID (Ok tags))).
Proof.
  simpl. unfold getKeyInfo, callDescribeKey, callListResourceTags.
  unfold KeyStateEnabled.
  destruct (DescribeKey client keyID (world st)) as [[meta|err] w]; simpl.
  - destruct (String.eqb_spec (KeyState meta) "Enabled") as [He|Hne]; simpl.
    + destruct (ListResourceTags client keyID w) as [[tags|err] w'];
        destruct (MetaCreationDate meta) as [t|]; simpl;
        (eexists; split; [by rewrite <- app_assoc|]);
        simpl; rewrite decide_True by done; repeat split; try done.
      all: exists tags; split; [|done].
      all: intros ->; by apply H.
    + destruct (MetaCreationDate meta) as [t|]; simpl;
        (eexists; split; [reflexivity|]);
        simpl; rewrite decide_False by done; repeat split; done.
  - destruct (accessDenied err); simpl; (eexists; split; [reflexivity|]); simpl;
      repeat split; done.
Qed.

Lemma enrichList_effect (keys : list KeyListEntry) (st : State World) :
  let infos := (enrichList client keys st).1 in
  let st' := (enrichList client keys st).2 in
  ∃ new : list Call,
    calls st' = calls st ++ new
    ∧ (describeCalls new).*1 = KeyId <$> keys
    ∧ tagCalls new = KeyID <$> filter (λ i, Status i = "Enabled") infos
    ∧ listingCalls new = []
    ∧ stdout st' = stdout st ∧ stderr st' = stderr st
    ∧ Forall (λ i, Tags i ≠ ∅ → Status i = "Enabled") infos.
Proof.
  simpl. revert st. induction keys as [|key rest IH]; intros st.
  { exists []. simpl. rewrite app_nil_r. repeat split; try done. }
  cbn [enrichList].
  destruct (getKeyInfo_effect (KeyId key) st)
    as (new1 & Hc1 & Hd1 & Ht1 & Hl1 & Ho1 & He1 & Hinv1).
  pose proof (getKeyInfo_KeyID client (KeyId key) st) as Hid.
  destruct (getKeyInfo client (KeyId key) st) as [info st1]. simpl in *.
  destruct (IH st1) as (new2 & Hc2 & Hd2 & Ht2 & Hl2 & Ho2 & He2 & Hinv2).
  destruct (enrichList client rest st1) as [infos st2]. simpl in *.
  exists (new1 ++ new2).
  split; [by rewrite Hc2, Hc1, <- app_assoc|].
  split; [by rewrite describeCalls_app, fmap_app, Hd1, Hd2|].
  split.
  { unfold tagCalls in *. rewrite omap_app, Ht1, Ht2.
    destruct (decide (Status info = "Enabled")) as [Hs|Hs].
    - rewrite filter_cons_True by done. by rewrite fmap_cons, Hid.
    - by rewrite filter_cons_False by done. }
  split; [unfold listingCalls in *; by rewrite omap_app, Hl1, Hl2|].
  split; [congruence|]. split; [congruence|].
  constructor; [|done]. intros Hne. by apply Hinv1.
Qed.

(** X2.  In the partitions [main] builds, every record of the second
    table (status "Not Authorized") has an empty tag map, and every record
    that has a tag is in the first table: a record gets tags only from a
    tag call, which is issued only for the state "Enabled". *)
Theorem partitions_tags (rangeKeys : ∀ V : Type, gmap string V → list string)
    (keys : list KeyListEntry) (st : State World) :
  let infos := (enrichList client keys st).1 in
  let acc := (enrichAll client rangeKeys keys emptyAcc st).1 in
  Forall (λ r, Tags r = ∅) (notAuthorizedKeys acc)
  ∧ Forall (λ r, Tags r ≠ ∅ → r ∈ enabledKeys acc) infos.
Proof.
  simpl. rewrite enrichAll_enrichList. simpl.
  rewrite collect_enabledKeys, collect_notAuthorizedKeys. simpl.
  destruct (enrichList_effect keys st) as (_ & _ & _ & _ & _ & _ & _ & Hinv).
  rewrite Forall_forall in Hinv. split; apply Forall_forall.
  - intros r [Hs Hr]%list_elem_of_filter.
    destruct (decide (Tags r = ∅)) as [|Hne]; [done|].
    specialize (Hinv r Hr Hne). rewrite Hs in Hinv. discriminate.
  - intros r Hr Hne. apply list_elem_of_filter. split; [|done]. by apply Hinv.
Qed.

(** X3.  The loop of [main] over [n] listed keys issues exactly one detail
    call per key, in listing order, and one tag call for each record whose
    status is "Enabled", in the same order, and no listing request; it
    writes nothing to either output stream. *)
Theorem enrichAll_calls (rangeKeys : ∀ V : Type, gmap string V → list string)
    (keys : list KeyListEntry) (acc : Acc) (st : State World) :
  let infos := (enrichList client keys st).1 in
  let st' := (enrichAll client rangeKeys keys acc st).2 in
  (describeCalls (newCalls st st')).*1 = KeyId <$> keys
  ∧ tagCalls (newCalls st st') = KeyID <$> filter (λ i, Status i = "Enabled") infos
  ∧ listingCalls (newCalls st st') = []
  ∧ (length keys ≤ length (newCalls st st') ≤ 2 * length keys)%nat
  ∧ stdout st' = stdout st ∧ stderr st' = stderr st.
Proof.
  simpl. rewrite enrichAll_enrichList. simpl.
  destruct (enrichList_effect keys st) as (new & Hc & Hd & Ht & Hl & Ho & He & _).
  rewrite (newCalls_app _ _ _ Hc).
  split; [exact Hd|]. split; [exact Ht|]. split; [exact Hl|].
  split; [|done].
  assert (length new
          = length (describeCalls new) + length (tagCalls new)
            + length (listingCalls new)) as Hlen.
  { clear. induction new as [|[]]; simpl; [done|..];
      unfold describeCalls, tagCalls, listingCalls in *; simpl; lia. }
  rewrite Hl, Ht in Hlen. simpl in Hlen.
  assert (length (describeCalls new) = length keys) as Hdl.
  { by rewrite <- (length_fmap fst), Hd, length_fmap. }
  rewrite length_fmap in Hlen.
  pose proof (length_filter (λ i, Status i = "Enabled") (enrichList client keys st).1).
  rewrite (enrichList_length client keys st) in *. lia.
Qed.

Lemma listingCalls_lookupCalls (items : list (KeyListEntry * result KeyMetadata)) :
  listingCalls (lookupCalls items) = [].
Proof. induction items as [|kr items IH]; [reflexivity|]. exact IH. Qed.

(** X4.  The listing requests of a run of [listAllKeys] form a chain: the
    first carries the initial marker, each later one the marker returned
    by the page before it, and a request follows a page only when that
    page announced more.  The run ends with the error of the last request
    when it failed, returns keys when the last page announced no more, and
    uses up its page budget only when each of its [fuel] requests was
    answered with a page announcing more. *)
Theorem listAllKeys_request_chain (fuel : nat) (allKeys : list KeyListEntry)
    (marker : option string) (st : State World) :
  let r := (listAllKeys_loop client fuel allKeys marker st).1 in
  let st' := (listAllKeys_loop client fuel allKeys marker st).2 in
  let requests := listingCalls (newCalls st st') in
  chained marker requests
  ∧ (length requests ≤ fuel)%nat
  ∧ match last requests with
    | None => r = None ∧ fuel = 0
    | Some (_, Err err) => r = Some (Err err)
    | Some (_, Ok output) =>
        if Truncated output then r = None ∧ length requests = fuel
        else ∃ keys, r = Some (Ok keys)
    end.
Proof.
  simpl.
  enough (∃ new,
            calls (listAllKeys_loop client fuel allKeys marker st).2 = calls st ++ new
            ∧ chained marker (listingCalls new)
            ∧ (length (listingCalls new) ≤ fuel)%nat
            ∧ match last (listingCalls new) with
              | None => (listAllKeys_loop client fuel allKeys marker st).1 = None ∧ fuel = 0
              | Some (_, Err err) =>
                  (listAllKeys_loop client fuel allKeys marker st).1 = Some (Err err)
              | Some (_, Ok output) =>
                  if Truncated output
                  then (listAllKeys_loop client fuel allKeys marker st).1 = None
                       ∧ length (listingCalls new) = fuel
                  else ∃ keys,
                      (listAllKeys_loop client fuel allKeys marker st).1 = Some (Ok keys)
              end) as (new & Hc & H).
  { by rewrite (newCalls_app _ _ _ Hc). }
  revert allKeys marker st. induction fuel as [|fuel IH]; intros allKeys marker st.
  { exists []. simpl. rewrite app_nil_r. repeat split; done. }
  cbn [listAllKeys_loop].
  pose proof (callListKeys_calls client marker st) as Hc.
  destruct (callListKeys client marker st) as [[output|err] st1]; simpl in Hc.
  - destruct (filterKeys_lookups client (Keys output) allKeys st1)
      as (items1 & _ & Hc1 & _ & _ & _).
    destruct (filterKeys client (Keys output) allKeys st1) as [allKeys1 st2].
    simpl in Hc1.
    destruct (Truncated output) eqn:Htr; simpl.
    + destruct (IH allKeys1 (NextMarker output) st2) as (new2 & Hc2 & Hch & Hlen & Hlast).
      exists (CallListKeys marker (Ok output) :: lookupCalls items1 ++ new2).
      split; [by rewrite Hc2, Hc1, Hc, <- !app_assoc|].
      assert (listingCalls (CallListKeys marker (Ok output) :: lookupCalls items1 ++ new2)
              = (marker, Ok output) :: listingCalls new2) as ->.
      { unfold listingCalls. simpl. rewrite omap_app.
        fold (listingCalls (lookupCalls items1)).
        by rewrite listingCalls_lookupCalls. }
      split; [simpl; by rewrite Htr|].
      split; [simpl; lia|].
      rewrite last_cons.
      destruct (last (listingCalls new2)) as [[sent [out2|err2]]|] eqn:Hl.
      * destruct (Truncated out2); [|done].
        destruct Hlast as [-> <-]. done.
      * done.
      * rewrite Htr. destruct Hlast as [-> ->]. split; [done|].
        apply last_None in Hl. by rewrite Hl.
    + exists (CallListKeys marker (Ok output) :: lookupCalls items1 ++ []).
      split; [by rewrite app_nil_r, Hc1, Hc, <- !app_assoc|].
      assert (listingCalls (CallListKeys marker (Ok output) :: lookupCalls items1 ++ [])
              = [(marker, Ok output)]) as ->.
      { unfold listingCalls. simpl. rewrite omap_app.
        fold (listingCalls (lookupCalls items1)).
        by rewrite listingCalls_lookupCalls. }
      simpl. rewrite Htr. repeat split; try done; try lia. by eexists.
  - exists [CallListKeys marker (Err err)]. simpl. repeat split; try done; lia.
Qed.

Lemma listAllKeys_loop_items (fuel : nat) (allKeys : list KeyListEntry)
    (marker : option string) (st : State World) :
  ∃ (items : list (KeyListEntry * result KeyMetadata)) (new : list Call),
    calls (listAllKeys_loop client fuel allKeys marker st).2 = calls st ++ new
    ∧ listedKeys new = items.*1
    ∧ (describeCalls new).*2 = items.*2
    ∧ ∀ keys, (listAllKeys_loop client fuel allKeys marker st).1 = Some (Ok keys) →
        keys = allKeys ++ (filter (λ kr, keepKey kr.2 = true) items).*1.
Proof.
  revert allKeys marker st. induction fuel as [|fuel IH]; intros allKeys marker st.
  { exists [], []. simpl. rewrite app_nil_r. repeat split; done. }
  cbn [listAllKeys_loop].
  pose proof (callListKeys_calls client marker st) as Hc.
  destruct (callListKeys client marker st) as [[output|err] st1]; simpl in Hc.
  2:{ exists [], [CallListKeys marker (Err err)]. repeat split; done. }
  destruct (filterKeys_lookups client (Keys output) allKeys st1)
    as (items1 & Hi1 & Hc1 & Hk1 & _ & _).
  destruct (filterKeys client (Keys output) allKeys st1) as [allKeys1 st2].
  simpl in Hc1, Hk1.
  assert (∀ rest,
            listedKeys (CallListKeys marker (Ok output) :: lookupCalls items1 ++ rest)
            = items1.*1 ++ listedKeys rest
            ∧ (describeCalls
                 (CallListKeys marker (Ok output) :: lookupCalls items1 ++ rest)).*2
              = items1.*2 ++ (describeCalls rest).*2) as Hlog.
  { intros rest.
    change (CallListKeys marker (Ok output) :: lookupCalls items1 ++ rest)
      with ([CallListKeys marker (Ok output)] ++ lookupCalls items1 ++ rest).
    rewrite !listedKeys_app, !describeCalls_app, listedKeys_lookupCalls,
      describeCalls_lookupCalls, fmap_app, Hi1.
    split; [simpl; by rewrite app_nil_r|]. simpl.
    rewrite fmap_app, <- list_fmap_compose. reflexivity. }
  destruct (Truncated output); simpl.
  - destruct (IH allKeys1 (NextMarker output) st2) as (items2 & new2 & Hc2 & Hl2 & Hd2 & Hk2).
    exists (items1 ++ items2), (CallListKeys marker (Ok output) :: lookupCalls items1 ++ new2).
    destruct (Hlog new2) as [-> ->].
    split; [by rewrite Hc2, Hc1, Hc, <- !app_assoc|].
    split; [by rewrite Hl2, fmap_app|]. split; [by rewrite Hd2, fmap_app|].
    intros keys Hr. by rewrite (Hk2 keys Hr), Hk1, filter_app, fmap_app, <- app_assoc.
  - exists items1, (CallListKeys marker (Ok output) :: lookupCalls items1 ++ []).
    destruct (Hlog []) as [-> ->].
    split; [by rewrite app_nil_r, Hc1, Hc, <- !app_assoc|].
    split; [by rewrite app_nil_r|]. split; [by rewrite app_nil_r|].
    by intros keys [= <-].
Qed.

(** X20.  The keys [listAllKeys] returns are a sublist of the keys of the
    pages it listed, in listing order.  When every detail lookup of the
    run failed nothing is filtered out: the listing returns all listed
    keys, those managed by AWS included. *)
Theorem listAllKeys_keeps_sublist (fuel : nat) (st : State World)
    (keys : list KeyListEntry) :
  let st' := (listAllKeys client fuel st).2 in
  (listAllKeys client fuel st).1 = Some (Ok keys) →
  keys `sublist_of` listedKeys (newCalls st st')
  ∧ (Forall (λ r, ∃ err, r = Err err) (describeCalls (newCalls st st')).*2 →
     keys = listedKeys (newCalls st st')).
Proof.
  simpl. unfold listAllKeys.
  destruct (listAllKeys_loop_items fuel [] None st) as (items & new & Hc & Hl & Hd & Hk).
  rewrite (newCalls_app _ _ _ Hc), Hl, Hd. intros Hr. rewrite (Hk keys Hr). simpl.
  split.
  - apply fmap_sublist, sublist_filter.
  - intros Hall. f_equal. clear -Hall.
    induction items as [|[key r] items IH]; [reflexivity|].
    apply Forall_cons in Hall as [[err Herr] Hall]. simpl in Herr. subst r.
    rewrite filter_cons_True by reflexivity. f_equal. by apply IH.
Qed.

End KMSEnrichment.



(** ** The key report: [main] *)

Section KMSMain.

Context {World : Type} (client : KMS.Client World).
Variable rangeKeys : ∀ V : Type, gmap string V → list string.
Variable Format : Time → string.
Variable RuneCountInString : string → nat.
Import KMS.


(** X6.  [main] never panics.  It ends with status 0 exactly when the
    configuration loads and the listing returns keys, and then writes
    nothing to the error stream; it ends with status 1 exactly when the
    configuration or the listing fails, and then writes nothing to the
    standard output; when the configuration fails it issues no call. *)
Theorem main_outcomes (cfg : result ()) (fuel : nat) (st : State World) :
  let run := main client rangeKeys Format RuneCountInString cfg fuel st in
  let listing := listAllKeys client fuel st in
  run.1 ≠ Panic
  ∧ (run.1 = Exit 0 ↔ cfg = Ok () ∧ ∃ keys, listing.1 = Some (Ok keys))
  ∧ (run.1 = Exit 1 ↔
       (∃ err, cfg = Err err) ∨ (cfg = Ok () ∧ ∃ err, listing.1 = Some (Err err)))
  ∧ (run.1 = Exit 0 → stderr run.2 = stderr st)
  ∧ (run.1 = Exit 1 → stdout run.2 = stdout st)
  ∧ (∀ err, cfg = Err err → calls run.2 = calls st).
Proof.
  simpl. unfold main. destruct cfg as [[]|cerr].
  2:{ simpl. split; [done|]. split; [split; [done|intros [? _]; done]|].
      split; [split; [eauto|done]|]. repeat split; done. }
  unfold listAllKeys.
  destruct (listAllKeys_loop_outcome client fuel [] None st)
    as (new & _ & Ho & He & _).
  destruct (listAllKeys_loop client fuel [] None st) as [[[keys|err]|] st1];
    simpl in Ho, He; simpl.
  - destruct (enrichList_effect client keys st1) as (_ & _ & _ & _ & _ & Ho2 & He2 & _).
    rewrite enrichAll_enrichList.
    destruct (enrichList client keys st1) as [infos st2]. simpl in Ho2, He2. simpl.
    destruct (report_defined Format RuneCountInString rangeKeys keys
                (foldl (collect rangeKeys) emptyAcc infos)) as [out ->]. simpl.
    split; [done|]. split; [split; [eauto|done]|].
    split; [split; [done|intros [[? ?]|[_ [? ?]]]; done]|].
    split; [congruence|]. split; [done|]. done.
  - split; [done|]. split; [split; [done|intros [_ [? ?]]; done]|].
    split; [split; [eauto|done]|]. split; [done|]. split; [congruence|]. done.
  - split; [done|]. split; [split; [done|intros [_ [? ?]]; done]|].
    split; [split; [done|intros [[? ?]|[_ [? ?]]]; done]|]. repeat split; done.
Qed.

End KMSMain.

(** ** The key report: the tables *)

Section KMSTables.

Variable Format : Time → string.
Variable RuneCountInString : string → nat.
Import KMS.

Lemma widenNotAuthorized_max (keys : list KeyInfo) (w0 w1 : nat) :
  widenNotAuthorized keys [w0; w1]
  = Some [w0 `max` max_list ((λ key, String.length (KeyID key)) <$> keys);
          w1 `max` max_list ((λ key, String.length (Status key)) <$> keys)].
Proof.
  revert w0 w1. induction keys as [|key rest IH]; intros w0 w1.
  { simpl. by rewrite !Nat.max_0_r. }
  cbn [widenNotAuthorized]. rewrite (widen_max 0 _ w0) by reflexivity.
  cbn [mbind option_bind]. rewrite (widen_max 1 _ w1) by reflexivity.
  cbn [mbind option_bind]. simpl. rewrite IH.
  by rewrite !Nat.max_assoc.
Qed.

(** X7.  In the table of the keys that are not authorized, the width of
    each of the two columns is the greatest length in bytes among its
    header and the identifiers, respectively the statuses, of all keys; the
    function never indexes out of range, and the table is the header row,
    the rule and one row per key, every value written whole. *)
Theorem notAuthorized_table (keys : list KeyInfo) :
  let widths :=
    [max_list (String.length <$> "Key ID" :: (KeyID <$> keys));
     max_list (String.length <$> "Status" :: (Status <$> keys))] in
  notAuthorizedWidths keys = Some widths
  ∧ printNotAuthorizedKeysTable RuneCountInString keys
    = Some (paddedRow RuneCountInString widths notAuthorizedHeaders
            +:+ printSeparator widths
            +:+ paddedRows RuneCountInString widths (notAuthorizedRow <$> keys)).
Proof.
  assert (notAuthorizedWidths keys
          = Some [max_list (String.length <$> "Key ID" :: (KeyID <$> keys));
                  max_list (String.length <$> "Status" :: (Status <$> keys))]) as Hw.
  { unfold notAuthorizedWidths. simpl. rewrite widenNotAuthorized_max.
    by rewrite <- !list_fmap_compose. }
  split; [exact Hw|].
  unfold printNotAuthorizedKeysTable. rewrite Hw. cbn [mbind option_bind].
  rewrite printRow_padded by (simpl; lia). cbn [mbind option_bind].
  rewrite printRows_padded; [reflexivity|].
  apply Forall_fmap, Forall_forall. intros key _. simpl. lia.
Qed.

Lemma printCells_out_of_range (values : list string) (widths : list nat) (i : nat) :
  (i ≤ length widths)%nat → (length widths < i + length values)%nat →
  printCells RuneCountInString i values widths = None.
Proof.
  revert i. induction values as [|v rest IH]; intros i Hi Hlen; simpl in Hlen; [lia|].
  cbn [printCells]. destruct (widths !! i) as [w|] eqn:Hw; [|reflexivity].
  apply lookup_lt_Some in Hw. rewrite IH by lia. reflexivity.
Qed.

Lemma zip_take_length (widths : list nat) (values : list string) :
  zip (take (length values) widths) values = zip widths values.
Proof.
  revert widths. induction values as [|v rest IH]; intros [|w widths]; try reflexivity.
  simpl. by rewrite IH.
Qed.

(** X8.  [printRow] panics on an index out of range exactly when it is
    given more values than widths; otherwise it writes every value whole
    under the width at the same position and ignores the widths that are
    left over. *)
Theorem printRow_bounds (values : list string) (widths : list nat) :
  printRow RuneCountInString values widths
  = if decide (length values ≤ length widths)%nat
    then Some (paddedRow RuneCountInString (take (length values) widths) values)
    else None.
Proof.
  destruct (decide (length values ≤ length widths)%nat) as [Hle|Hgt].
  - rewrite printRow_padded by done. unfold paddedRow, paddedCells.
    by rewrite zip_take_length.
  - unfold printRow. rewrite printCells_out_of_range by (simpl; lia). reflexivity.
Qed.

(** *** Alignment *)

Lemma length_append (s t : string) :
  String.length (s +:+ t) = String.length s + String.length t.
Proof.
  induction s as [|a s IH]; [reflexivity|].
  rewrite append_cons. simpl. by rewrite IH.
Qed.

Lemma length_Repeat (c : Ascii.ascii) (n : nat) : String.length (Repeat c n) = n.
Proof. induction n as [|n IH]; simpl; [done|by rewrite IH]. Qed.

Lemma paddedCells_length (widths : list nat) (values : list string) :
  Forall2 (λ w v, RuneCountInString v = String.length v
                  ∧ (String.length v ≤ w)%nat) widths values →
  String.length (paddedCells RuneCountInString widths values)
  = sum_list ((λ w, w + 3) <$> widths).
Proof.
  induction 1 as [|w v widths values [Hr Hle] _ IH]; [reflexivity|].
  change (paddedCells RuneCountInString (w :: widths) (v :: values))
    with ("| " +:+ padRight RuneCountInString w v +:+ " "
          +:+ paddedCells RuneCountInString widths values).
  unfold padRight. rewrite fmap_cons. cbn [sum_list sum_list_with].
  rewrite !length_append, length_Repeat, Hr, IH. simpl. lia.
Qed.

Lemma printSeparator_length (widths : list nat) :
  String.length (printSeparator widths) = sum_list ((λ w, w + 3) <$> widths) + 2.
Proof.
  induction widths as [|w widths IH]; [reflexivity|].
  change (printSeparator (w :: widths))
    with ("+-" +:+ Repeat "-" w +:+ "-" +:+ printSeparator widths).
  rewrite fmap_cons. cbn [sum_list sum_list_with].
  rewrite !length_append, length_Repeat, IH. simpl. lia.
Qed.

Lemma column_elem (i : nat) (rows : list (list string)) (row : list string)
    (cell : string) :
  row ∈ rows → row !! i = Some cell → cell ∈ column i rows.
Proof. intros Hrow Hcell. unfold column. apply list_elem_of_omap. eauto. Qed.

Lemma enabledHeaders_lookup_nonempty (tagKeys : list string) (i : nat) (h : string) :
  Forall (λ k, k ≠ "") tagKeys → enabledHeaders tagKeys !! i = Some h → h ≠ "".
Proof.
  intros Hne. unfold enabledHeaders.
  destruct i as [|[|[|[|j]]]]; simpl; try (intros [= <-]; discriminate).
  intros Hj. rewrite Forall_forall in Hne. apply Hne.
  by eapply list_elem_of_lookup_2.
Qed.

(** X9.  When no tag key is the empty string and every text of the table
    consists of one-byte runes, the table of the enabled keys is aligned:
    the header row, the rule and every key row have the same length, three
    bytes per column beyond its width and two for the closing bar and the
    newline. *)
Theorem enabled_table_aligned (keys : list KeyInfo) (tagKeys : list string)
    (widths : list nat) :
  enabledWidths Format keys tagKeys = Some widths →
  Forall (λ k, k ≠ "") tagKeys →
  (∀ row v, row ∈ enabledHeaders tagKeys :: (enabledRow Format tagKeys <$> keys) →
            v ∈ row → RuneCountInString v = String.length v) →
  ∀ row, row ∈ enabledHeaders tagKeys :: (enabledRow Format tagKeys <$> keys) →
    String.length (paddedRow RuneCountInString widths row)
    = String.length (printSeparator widths)
    ∧ String.length (printSeparator widths) = sum_list ((λ w, w + 3) <$> widths) + 2.
Proof.
  intros Hw Hne Hascii row Hrow.
  rewrite enabledWidths_fold in Hw. injection Hw as <-.
  assert (length (String.length <$> enabledHeaders tagKeys) = 4 + length tagKeys) as Hh.
  { unfold enabledHeaders. rewrite length_fmap, length_app. reflexivity. }
  pose proof (widths_fold_length Format tagKeys keys _ Hh) as Hlen.
  set (widths := foldl _ _ keys) in *.
  split; [|apply printSeparator_length].
  unfold paddedRow. rewrite !length_append, printSeparator_length. simpl.
  rewrite paddedCells_length; [lia|].
  assert (length row = 4 + length tagKeys) as Hrl.
  { apply elem_of_cons in Hrow as [->|Hin].
    - rewrite <- Hh. by rewrite length_fmap.
    - apply list_elem_of_fmap in Hin as (key & -> & _). apply enabledRow_length. }
  apply Forall2_same_length_lookup_2; [lia|].
  intros i w c Hwi Hci. split.
  { apply (Hascii row c Hrow). by eapply list_elem_of_lookup_2. }
  assert (i < 4 + length tagKeys) as Hi by (rewrite <- Hrl; by eapply lookup_lt_Some).
  destruct (lookup_lt_is_Some_2 (enabledHeaders tagKeys) i) as [h Hhi].
  { rewrite <- Hh, length_fmap in Hi. exact Hi. }
  pose proof (enabledHeaders_lookup_nonempty tagKeys i h Hne Hhi) as Hhne.
  assert (1 ≤ String.length h)%nat by (destruct h; [done|simpl; lia]).
  unfold widths in Hwi.
  rewrite (widths_fold_lookup Format tagKeys keys _ i (String.length h)) in Hwi;
    [|by rewrite list_lookup_fmap, Hhi|done].
  injection Hwi as <-.
  apply elem_of_cons in Hrow as [->|Hin].
  - rewrite Hhi in Hci. injection Hci as <-. lia.
  - pose proof (column_max_bounds Format tagKeys keys i Hi) as Hb.
    pose proof (column_elem i _ row c Hin Hci) as Hc.
    apply (list_elem_of_fmap_2 String.length) in Hc.
    apply max_list_elem_of_le in Hc. lia.
Qed.

(** X10.  In a row of the table of the enabled keys the first four cells
    are the identifier, the status, the formatted creation date and the
    key type, and the cell under the header of a tag key is the value the
    key has for that tag when this value is not empty, and "-" both when
    the key lacks the tag and when its value is the empty string. *)
Theorem enabled_row_cells (tagKeys : list string) (key : KeyInfo) :
  take 4 (enabledRow Format tagKeys key)
  = [KeyID key; Status key; Format (CreationDate key); KeyType key]
  ∧ ∀ j tagKey,
      tagKeys !! j = Some tagKey →
      enabledHeaders tagKeys !! (4 + j) = Some tagKey
      ∧ enabledRow Format tagKeys key !! (4 + j)
        = Some (match Tags key !! tagKey with
                | Some v => if decide (v = "") then "-" else v
                | None => "-"
                end).
Proof.
  split; [reflexivity|]. intros j tagKey Hj. split; [exact Hj|].
  change (enabledRow Format tagKeys key !! (4 + j))
    with ((tagCell key <$> tagKeys) !! j).
  rewrite list_lookup_fmap, Hj. simpl. unfold tagCell, tagValueOf.
  destruct (Tags key !! tagKey) as [v|]; simpl; [|reflexivity].
  destruct (String.eqb_spec v "") as [->|Hne]; [reflexivity|].
  by rewrite decide_False.
Qed.

End KMSTables.

(** ** The exporter: the exported record *)





(** X13.  For an instant whose day number fits in 32 bits, the exported
    day is the calendar day (the floor of the epoch seconds over 86400)
    when the instant is at or after the epoch or falls on a midnight, and
    the day after the calendar day for every other instant before the
    epoch: the last second of 1969 is exported as day 0. *)
Theorem daysOf_calendar (t : Time) :
  (- 2 ^ 31 * 86400 < Unix t < 2 ^ 31 * 86400)%Z →
  Secrets.daysOf t
  = (Unix t / 86400
     + (if decide (Unix t < 0 ∧ Unix t mod 86400 ≠ 0) then 1 else 0))%Z.
Proof.
  intros Hr. unfold Secrets.daysOf.
  pose proof (Z.quot_rem' (Unix t) 86400) as Hq.
  pose proof (Z.div_mod (Unix t) 86400 ltac:(lia)) as Hd.
  pose proof (Z.mod_pos_bound (Unix t) 86400 ltac:(lia)) as Hm.
  destruct (Z_lt_le_dec (Unix t) 0) as [Hneg|Hpos].
  - pose proof (Z.rem_bound_pos (- Unix t) 86400 ltac:(lia) ltac:(lia)) as Hrem.
    rewrite Z.rem_opp_l' in Hrem.
    destruct (decide (Unix t < 0 ∧ Unix t mod 86400 ≠ 0)%Z) as [[_ Hnz]|Hz].
    + rewrite int32_small by lia. lia.
    + rewrite int32_small by lia. lia.
  - pose proof (Z.rem_bound_pos (Unix t) 86400 ltac:(lia) ltac:(lia)) as Hrem.
    rewrite decide_False by lia. rewrite int32_small by lia. lia.
Qed.

(** X14.  [isNotAuthorizedError] looks at the API error code only: two
    errors with the same code are classified alike whatever their texts,
    an error that carries no API error code is never an authorization
    denial, even when its text says "AccessDenied", and wrapping an error
    with [fmt.Errorf] and [%w] does not change its classification. *)
Theorem isNotAuthorizedError_by_code (err1 err2 : error) (prefix : string) :
  (ErrorCode err1 = ErrorCode err2 →
   Secrets.isNotAuthorizedError err1 = Secrets.isNotAuthorizedError err2)
  ∧ (ErrorCode err1 = None → Secrets.isNotAuthorizedError err1 = false)
  ∧ Secrets.isNotAuthorizedError (Errorf_w prefix err1)
    = Secrets.isNotAuthorizedError err1
  ∧ (∀ code, ErrorCode err1 = Some code → Contains code "NotAuthorized" = true →
       Secrets.isNotAuthorizedError err1 = true).
Proof.
  unfold Secrets.isNotAuthorizedError. split; [by intros ->|].
  split; [by intros ->|]. split; [reflexivity|].
  intros code -> ->. by rewrite !orb_true_r.
Qed.

(** ** The exporter: [writeParquet] and [main] *)

Section SecretsExport.

Context {World Disk : Type}.
Import Secrets.









End SecretsExport.

(** ** Instances of the further properties *)

(** Of the tags Team=a, Env=prod, Team=b the record keeps Team=b and
    Env=prod. *)
Lemma getKeyInfo_tags_last_wins_sample :
  let info := (KMS.getKeyInfo Sample.taggedKey "k1" Sample.st0).1 in
  KMS.Tags info !! "Team" = Some "b"
  ∧ KMS.Tags info !! "Env" = Some "prod"
  ∧ KMS.Tags info !! "Owner" = None.
Proof.
  destruct (getKeyInfo_tags_last_wins Sample.taggedKey "k1" Sample.st0
              Sample.enabledMeta 0 0
              [KMS.mkTag "Team" "a"; KMS.mkTag "Env" "prod"; KMS.mkTag "Team" "b"]
              eq_refl eq_refl eq_refl) as (Htags & _).
  split; [exact (Htags "Team")|]. split; [exact (Htags "Env")|exact (Htags "Owner")].
Defined.


(** The table of two keys over the column Team: every line is 70 bytes
    long. *)
Lemma enabled_table_aligned_sample :
  let widths := [6; 7; 19; 17; 4] in
  String.length (KMS.paddedRow Sample.asciiRunes widths (KMS.enabledHeaders ["Team"]))
  = String.length (KMS.printSeparator widths)
  ∧ String.length (KMS.paddedRow Sample.asciiRunes widths
                     (KMS.enabledRow Sample.fixedFormat ["Team"] Sample.bareRecord))
    = String.length (KMS.printSeparator widths)
  ∧ String.length (KMS.printSeparator widths) = 70.
Proof.
  assert (∀ row,
            row ∈ KMS.enabledHeaders ["Team"]
                  :: (KMS.enabledRow Sample.fixedFormat ["Team"]
                        <$> [Sample.teamRecord; Sample.bareRecord]) →
            String.length (KMS.paddedRow Sample.asciiRunes [6; 7; 19; 17; 4] row)
            = String.length (KMS.printSeparator [6; 7; 19; 17; 4])
            ∧ String.length (KMS.printSeparator [6; 7; 19; 17; 4])
              = sum_list ((λ w, w + 3) <$> [6; 7; 19; 17; 4]) + 2) as H.
  { apply (enabled_table_aligned Sample.fixedFormat Sample.asciiRunes
             [Sample.teamRecord; Sample.bareRecord] ["Team"] [6; 7; 19; 17; 4]).
    - reflexivity.
    - repeat constructor; discriminate.
    - intros row v _ _. reflexivity. }
  split; [|split].
  - apply H. left.
  - apply H. right. right. left.
  - apply (H (KMS.enabledHeaders ["Team"])). left.
Defined.

(** The last second of 1969 is exported as day 0, the calendar day -1
    plus one. *)
Lemma daysOf_calendar_sample :
  Secrets.daysOf (mkTime (-1) 0) = (-1 / 86400 + 1)%Z.
Proof.
  apply (daysOf_calendar (mkTime (-1) 0)).
  vm_compute. split; reflexivity.
Defined.

(** One page with one secret: one record, and a run that creates, writes,
    finalizes and closes the file. *)
Lemma listSecrets_one_record_sample :
  [Secrets.ParquetGo.recordOf Sample.taggedSecret]
  = Secrets.ParquetGo.recordOf
      <$> Secrets.listedSecrets
            (Secrets.newCalls (Sample.sst0 Secrets.ParquetGo.SecretRecord)
               (Secrets.listSecrets Sample.oneSecret Secrets.ParquetGo.recordOf 3
                  (Sample.sst0 Secrets.ParquetGo.SecretRecord)).2).
Proof.
  apply (listSecrets_one_record_per_secret Sample.oneSecret
           Secrets.ParquetGo.recordOf 3 (Sample.sst0 _)).
  reflexivity.
Defined.


(** Of the three listed keys two are returned, in listing order; when
    every lookup is denied the one listed key is returned. *)
Lemma listAllKeys_keeps_sublist_sample :
  [Sample.key1; Sample.key3]
    `sublist_of` KMS.listedKeys
                   (KMS.newCalls Sample.st0 (KMS.listAllKeys Sample.mixedKeys 3 Sample.st0).2)
  ∧ [Sample.key1]
    = KMS.listedKeys
        (KMS.newCalls Sample.st0 (KMS.listAllKeys Sample.deniedDetails 3 Sample.st0).2).
Proof.
  split.
  - apply (listAllKeys_keeps_sublist Sample.mixedKeys 3 Sample.st0
             [Sample.key1; Sample.key3] eq_refl).
  - apply (listAllKeys_keeps_sublist Sample.deniedDetails 3 Sample.st0
             [Sample.key1] eq_refl).
    repeat constructor. by eexists.
Defined.
